(** * HenkanKun (src/App.tsx): batch image optimisation

    A shallow embedding of the image pipeline of [App.tsx]: the resize
    arithmetic of [processImage] on JavaScript numbers (IEEE 754 binary64,
    through the Standard Library's [SpecFloat]), the promise plumbing of
    [handleStartOptimization], the intake handler [handleFileChange] and the
    archive assembly of [downloadAllAsZip], followed by the properties that
    the specification states about them. *)

From Stdlib Require Import ZArith Lia List String Ascii Bool.
From Stdlib Require Import QArith Qabs Qpower Lqa.
From Stdlib Require Import SpecFloat.
Import ListNotations.

Local Open Scope Z_scope.

(** ** JavaScript numbers

    A JS [number] is a binary64 float.  [SpecFloat] gives the operations
    with round-to-nearest-even as executable functions on [Z]. *)

Module Num.

Definition prec : Z := 53.
Definition emax : Z := 1024.

Definition number : Type := spec_float.

(** An integer read from the DOM ([img.width], the literal [1200]). *)
Definition ofZ (z : Z) : number := binary_normalize prec emax z 0 false.

(** [x * y] and [x / y]. *)
Definition mul (x y : number) : number := SFmul prec emax x y.
Definition div (x y : number) : number := SFdiv prec emax x y.

(** [x > y]; false when either side is NaN. *)
Definition gt (x y : number) : bool := SFltb y x.

(** The rational a finite number stands for (0 for infinities and NaN,
    which [isFinite] tells apart). *)
Definition toQ (x : number) : Q :=
  match x with
  | S754_finite s m e =>
      (if s then - inject_Z (Zpos m) else inject_Z (Zpos m)) * (2 ^ e)%Q
  | _ => 0%Q
  end.

Definition isFinite (x : number) : bool :=
  match x with
  | S754_finite _ _ _ | S754_zero _ => true
  | _ => false
  end.

(** A positive normal number: full 53-bit mantissa, exponent between
    [lo] and [hi]. *)
Definition normal (lo hi : Z) (x : number) : Prop :=
  exists m e, x = S754_finite false m e /\
              2 ^ 52 <= Zpos m < 2 ^ 53 /\ lo <= e <= hi.

(** The literal [0.8], i.e. the double nearest to 8/10. *)
Definition lit_0_8 : number := S754_finite false 7205759403792794 (-53).

End Num.

Import Num.

(** ** Data model (App.tsx, lines 5-11) *)

Inductive Status : Type := idle | processing | done.

Definition Status_eqb (a b : Status) : bool :=
  match a, b with
  | idle, idle | processing, processing | done, done => true
  | _, _ => false
  end.

(** The part of a DOM [File] the program reads. *)
Record File : Type := mkFile { name : string; size : Z }.

Record ImageData : Type := mkImageData {
  id : string;
  file : File;
  preview : string;
  status : Status;
  resultUrl : option string   (* [resultUrl?: string] *)
}.

(** ** The browser, as far as the program talks to it *)

(** A loaded [HTMLImageElement]: its source and its intrinsic size
    ([img.width] and [img.height] are DOM [unsigned long]s). *)
Record HTMLImage : Type := mkImage {
  img_src : string;
  img_width : Z;
  img_height : Z
}.

Definition uint32 (z : Z) : Prop := 0 <= z < 2 ^ 32.

(** One [ctx.drawImage(img, dx, dy, dw, dh)] call. *)
Record DrawImage : Type := mkDraw {
  draw_img : HTMLImage;
  draw_dx : number; draw_dy : number;
  draw_dw : number; draw_dh : number
}.

(** The canvas as the program leaves it: the two numbers assigned to
    [canvas.width] and [canvas.height] and the drawing made on it. *)
Record Canvas : Type := mkCanvas {
  cv_width : number;
  cv_height : number;
  cv_drawn : option DrawImage
}.

(** What [canvas.width = x] and [canvas.height = x] store.  The two
    attributes are DOM [unsigned long]s: the number assigned is truncated
    toward zero and taken modulo 2^32 (a number that is not finite gives 0),
    and a result above 2^31 - 1 is replaced by the attribute's default, 300
    for the width and 150 for the height. *)
Definition trunc (x : number) : Z :=
  match x with
  | S754_finite s m e =>
      let n := if 0 <=? e then Zpos m * 2 ^ e else Zpos m / 2 ^ (- e) in
      if s then - n else n
  | _ => 0
  end.

Definition toUnsignedLong (x : number) : Z := trunc x mod 2 ^ 32.

Definition canvas_attr (dflt : Z) (x : number) : Z :=
  let n := toUnsignedLong x in
  if n <=? 2147483647 then n else dflt.

(** The size of the canvas bitmap, which is what [toDataURL] encodes. *)
Definition bitmap_size (c : Canvas) : Z * Z :=
  (canvas_attr 300 (cv_width c), canvas_attr 150 (cv_height c)).

(** A promise of [processImage] either resolves or stays pending for
    ever: it is built from [resolve] alone.  (The promise of
    [zip.generateAsync], which can fail, is dealt with in
    [downloadAllAsZip].) *)
Inductive Promise (A : Type) : Type :=
| Resolved (a : A)
| Pending.
Arguments Resolved {A} a.
Arguments Pending {A}.

(** [Promise.all(ps)]: resolves with all the values once every promise has
    resolved (no promise of this program rejects). *)
Fixpoint Promise_all {A} (ps : list (Promise A)) : Promise (list A) :=
  match ps with
  | [] => Resolved []
  | p :: ps' =>
      match p, Promise_all ps' with
      | Resolved a, Resolved l => Resolved (a :: l)
      | _, _ => Pending
      end
  end.

(** [xs.map((x, i) => f i x)], counting from [i]. *)
Fixpoint mapi_from {A B} (i : nat) (f : nat -> A -> B) (xs : list A) : list B :=
  match xs with
  | [] => []
  | x :: xs' => f i x :: mapi_from (S i) f xs'
  end.

Definition mapi {A B} (f : nat -> A -> B) (xs : list A) : list B :=
  mapi_from 0 f xs.

(** Lines 61-66: [{ ...img, resultUrl, preview: resultUrl, status: "done" }]. *)
Definition withResult (img : ImageData) (url : string) : ImageData :=
  {| id := id img;
     file := file img;
     preview := url;
     status := done;
     resultUrl := Some url |}.

(** ** processImage (lines 18-51) *)

Definition MAX_SIZE : Z := 1200.

(** Lines 27-41: the new [width] and [height].  In each branch the
    product is taken with the old value of the other variable, before it is
    overwritten with [MAX_SIZE]. *)
Definition resize (width height : number) : number * number :=
  if gt width height then
    if gt width (ofZ MAX_SIZE)
    then (ofZ MAX_SIZE, mul height (div (ofZ MAX_SIZE) width))
    else (width, height)
  else
    if gt height (ofZ MAX_SIZE)
    then (mul width (div (ofZ MAX_SIZE) height), ofZ MAX_SIZE)
    else (width, height).

(** [a * MAX_SIZE / b], the scaled edge before any rounding. *)
Definition ideal_edge (a b : Z) : Q := inject_Z (a * MAX_SIZE) / inject_Z b.

(** Lines 28-44: the size of the canvas, and so of the encoded image, for
    a loaded image of size [W] x [H]. *)
Definition output_size (W H : Z) : Z * Z :=
  let '(width, height) := resize (ofZ W) (ofZ H) in
  (canvas_attr 300 width, canvas_attr 150 height).

Section Pipeline.

(** Whether [canvas.getContext("2d")] gives a context ([ctx?.drawImage]). *)
Variable has2d : bool.

(** [canvas.toDataURL(type, quality)]. *)
Variable toDataURL : Canvas -> string -> number -> string.

(** Lines 23-48, the body of [img.onload]. *)
Definition onload (img : HTMLImage) : string :=
  let '(width, height) := resize (ofZ (img_width img)) (ofZ (img_height img)) in
  let canvas :=
    {| cv_width := width;
       cv_height := height;
       cv_drawn :=
         if has2d
         then Some (mkDraw img (ofZ 0) (ofZ 0) width height)
         else None |} in
  toDataURL canvas "image/webp" lit_0_8.

(** [processImage]: [load src] is what the browser makes of
    [img.src = imgData.preview]: [Some img] when the image loads and
    [onload] fires, [None] when it does not (the program installs no
    [onerror] handler, so the promise is then never settled). *)
Definition processImage (load : string -> option HTMLImage)
           (imgData : ImageData) : Promise string :=
  match load (preview imgData) with
  | Some img => Resolved (onload img)
  | None => Pending
  end.

(** ** handleStartOptimization (lines 54-73) *)

(** Lines 58-67, the async callback of [images.map]. *)
Definition optimizeOne (load : string -> option HTMLImage)
           (img : ImageData) : Promise ImageData :=
  match processImage load img with
  | Resolved resultUrl => Resolved (withResult img resultUrl)
  | Pending => Pending
  end.

(** Lines 57-68, the awaited [Promise.all(images.map(...))].  Each task
    creates its own [Image], so the loads are told apart by the index of
    the task: [loads i] is what the browser makes of the [i]-th one. *)
Definition optimizeAll (loads : nat -> string -> option HTMLImage)
           (images : list ImageData) : Promise (list ImageData) :=
  Promise_all (mapi (fun i img => optimizeOne (loads i) img) images).

End Pipeline.

(** ** Component state (lines 14-15) *)

Record AppState : Type := mkState {
  images : list ImageData;
  isProcessing : bool
}.

(** Item [K]'s image fails to load; every other load is as before. *)
Definition fail_at (K : nat) (loads : nat -> string -> option HTMLImage)
  : nat -> string -> option HTMLImage :=
  fun i src => if Nat.eqb i K then None else loads i src.

(** ** downloadAllAsZip (lines 89-103) *)

Local Open Scope string_scope.

(** [if (img.resultUrl)]: a string that is present and not empty. *)
Definition truthy (r : option string) : bool :=
  match r with
  | Some (String _ _) => true
  | _ => false
  end.

(** [s.split(sep)] for a one-character separator. *)
Fixpoint split_on (sep : ascii) (s : string) : list string :=
  match s with
  | "" => [""]
  | String c s' =>
      let r := split_on sep s' in
      if Ascii.eqb c sep then "" :: r
      else match r with
           | h :: t => String c h :: t
           | [] => [String c ""]
           end
  end.

(** The class [[^/.]]. *)
Definition ext_char (c : ascii) : bool :=
  negb (Ascii.eqb c "/") && negb (Ascii.eqb c ".").

(** [[^/.]*$] at the start of [s]. *)
Fixpoint ext_chars (s : string) : bool :=
  match s with
  | "" => true
  | String c s' => ext_char c && ext_chars s'
  end.

(** [\.[^/.]+$] at the start of [s]. *)
Definition ext_here (s : string) : bool :=
  match s with
  | String c (String d s') =>
      Ascii.eqb c "." && ext_chars (String d s')
  | _ => false
  end.

(** [s.replace(/\.[^/.]+$/, "")]: the leftmost match, which runs to the
    end of the string, is replaced by the empty string. *)
Fixpoint strip_ext (s : string) : string :=
  match s with
  | "" => ""
  | String c s' => if ext_here s then "" else String c (strip_ext s')
  end.

(** Line 96. *)
Definition fileName (img : ImageData) : string :=
  strip_ext (name (file img)) ++ ".webp".

(** Line 95: [undefined] when the URL has no comma. *)
Definition base64Data (url : string) : option string :=
  nth_error (split_on "," url) 1.

(** One [zip.file(fileName, base64Data, { base64: true })] call. *)
Record ZipFile : Type := mkZipFile {
  zf_name : string;
  zf_data : option string;
  zf_base64 : bool
}.

(** Lines 92-99, the callback of [images.forEach]. *)
Definition zipOne (img : ImageData) : list ZipFile :=
  match resultUrl img with
  | Some url =>
      if truthy (Some url)
      then [mkZipFile (fileName img) (base64Data url) true]
      else []
  | None => []
  end.

(** The [zip.file] calls of the loop, in call order. *)
Definition zipFiles (imgs : list ImageData) : list ZipFile :=
  flat_map zipOne imgs.

(** JSZip's [zip.file(name, data, options)] on the files the zip holds: the
    zip keeps one file per name, in the order in which the names were first
    added; a file added under a name the zip already holds takes the place
    of the one that was there.  (The name of a DOM [File] is a leaf name, so
    no folder comes with a file.) *)
Fixpoint zip_file (zip : list ZipFile) (f : ZipFile) : list ZipFile :=
  match zip with
  | [] => [f]
  | g :: zip' =>
      if String.eqb (zf_name g) (zf_name f) then f :: zip'
      else g :: zip_file zip' f
  end.

(** Lines 90-99: the files of [zip] after the loop. *)
Definition zipObject (imgs : list ImageData) : list ZipFile :=
  fold_left zip_file (zipFiles imgs) [].

(** The file that a list holds under a name is the first [has_name]
    finds. *)
Definition has_name (n : string) (f : ZipFile) : bool :=
  String.eqb (zf_name f) n.

(** ** Handlers

    A handler is run as the list of its effects, in order: calls of the
    two state setters, [alert] and [saveAs]. *)

Inductive Event : Type :=
| SetIsProcessing (b : bool)
| SetImages (l : list ImageData)
| Alert (msg : string)
| SaveAs (content : list ZipFile) (filename : string).

Definition apply_event (st : AppState) (ev : Event) : AppState :=
  match ev with
  | SetIsProcessing b => {| images := images st; isProcessing := b |}
  | SetImages l => {| images := l; isProcessing := isProcessing st |}
  | Alert _ => st
  | SaveAs _ _ => st
  end.

Definition run_events (st : AppState) (evs : list Event) : AppState :=
  fold_left apply_event evs st.

Definition is_alert (ev : Event) : bool :=
  match ev with Alert _ => true | _ => false end.

Definition completion_message : string :=
  "すべての画像の最適化が完了しました！".

Section Handlers.

Variable has2d : bool.
Variable toDataURL : Canvas -> string -> number -> string.

(** Lines 54-73.  When the awaited [Promise.all] stays pending, the lines
    after the [await] never run. *)
Definition handleStartOptimization
           (loads : nat -> string -> option HTMLImage)
           (st : AppState) : list Event :=
  SetIsProcessing true ::
  match optimizeAll has2d toDataURL loads (images st) with
  | Resolved updatedImages =>
      [SetImages updatedImages; SetIsProcessing false;
       Alert completion_message]
  | Pending => []
  end.

(** The run reached its last line. *)
Definition completes (loads : nat -> string -> option HTMLImage)
           (st : AppState) : bool :=
  existsb is_alert (handleStartOptimization loads st).

End Handlers.

(** Lines 76-87.  [randomId i] and [createObjectURL i f] are what
    [Math.random()...] and [URL.createObjectURL(file)] return for the
    [i]-th selected file; [files] is [e.target.files]. *)
Definition handleFileChange
           (randomId : nat -> string) (createObjectURL : nat -> File -> string)
           (files : option (list File)) (st : AppState) : list Event :=
  match files with
  | None => []
  | Some fs =>
      let newFiles :=
        mapi (fun i f => {| id := randomId i;
                            file := f;
                            preview := createObjectURL i f;
                            status := idle;
                            resultUrl := None |}) fs in
      [SetImages (images st ++ newFiles)]
  end.

(** Lines 89-103.  [generates zip] tells whether the promise of
    [zip.generateAsync({ type: "blob" })] resolves, with the blob of the
    zip's files; when it does not, the line after the [await] never runs
    and nothing is saved. *)
Definition downloadAllAsZip (generates : list ZipFile -> bool)
           (st : AppState) : list Event :=
  let zip := zipObject (images st) in
  if generates zip then [SaveAs zip "optimized_images.zip"] else [].

(** Line 174: the download button is shown. *)
Definition download_shown (st : AppState) : bool :=
  existsb (fun img => Status_eqb (status img) done) (images st)
  && negb (isProcessing st).

(** ** The item invariant of the data model *)

(** [resultUrl] is set exactly on the items that are [done]. *)
Definition item_ok (img : ImageData) : Prop :=
  resultUrl img <> None <-> status img = done.

(** The same with the test the archive makes: set and non-empty. *)
Definition item_ready (img : ImageData) : Prop :=
  truthy (resultUrl img) = true <-> status img = done.

Definition is_done (img : ImageData) : bool := Status_eqb (status img) done.

(** ** The extension of a file name, in the specification's words

    The final extension is what follows the last dot, when that is not
    empty and holds no slash; stripping it removes the dot as well. *)
Fixpoint last_dot (s : string) : option (string * string) :=
  match s with
  | "" => None
  | String c s' =>
      match last_dot s' with
      | Some (base, ext) => Some (String c base, ext)
      | None => if Ascii.eqb c "." then Some ("", s') else None
      end
  end.

Definition no_slash (s : string) : bool :=
  negb (existsb (fun c => Ascii.eqb c "/") (list_ascii_of_string s)).

Definition stripExtension (s : string) : string :=
  match last_dot s with
  | Some (base, ext) =>
      if negb (String.eqb ext "") && no_slash ext then base else s
  | None => s
  end.

(** A name ends in an extension that the pattern of line 96 recognises:
    a dot followed by one or more characters other than dot and slash. *)
Definition has_extension (s : string) : Prop :=
  exists base ext,
    s = base ++ "." ++ ext /\ ext <> "" /\ ext_chars ext = true.

(** The entry the specification describes for a [done] item. *)
Definition expected_entry (img : ImageData) : ZipFile :=
  {| zf_name := stripExtension (name (file img)) ++ ".webp";
     zf_data := match resultUrl img with
                | Some url => base64Data url
                | None => None
                end;
     zf_base64 := true |}.

Local Open Scope list_scope.

(** Every state a handler passes through, started from a batch whose
    items all satisfy [P], is a batch whose items all satisfy [P]. *)
Definition preserves (P : ImageData -> Prop)
           (handler : AppState -> list Event) : Prop :=
  forall st pre post,
    Forall P (images st) ->
    handler st = pre ++ post ->
    Forall P (images (run_events st pre)).

(** ** Sample inputs *)

Definition sample_toDataURL : Canvas -> string -> number -> string :=
  fun _ _ _ => "data:image/webp;base64,UklGRg==".

(** A browser that loads every source as a 2000x1000 image, except
    ["blob:broken"], which is not an image. *)
Definition sample_load : nat -> string -> option HTMLImage :=
  fun _ src =>
    if String.eqb src "blob:broken" then None
    else Some (mkImage src 2000 1000).

Definition sample_item (n src : string) : ImageData :=
  {| id := "k3x9a"; file := mkFile n 2048; preview := src;
     status := idle; resultUrl := None |}.

Definition sample_done (n : string) : ImageData :=
  withResult (sample_item n "blob:1") "data:image/webp;base64,UklGRg==".

Definition sample_mixed : AppState :=
  {| images := [sample_done "photo.png"; sample_item "x.gif" "blob:x";
                sample_done "archive.tar.gz"];
     isProcessing := false |}.

Definition sample_good_bad : AppState :=
  {| images := [sample_item "a.png" "blob:a"; sample_item "b.jpg" "blob:broken"];
     isProcessing := false |}.

(** Two finished items whose names differ in the extension only. *)
Definition sample_same_stem : AppState :=
  {| images := [withResult (sample_item "a.png" "blob:1")
                           "data:image/webp;base64,AAAA";
                withResult (sample_item "a.jpg" "blob:2")
                           "data:image/webp;base64,BBBB"];
     isProcessing := false |}.

Definition sample_two_good : AppState :=
  {| images := [sample_item "a.png" "blob:a"; sample_item "b.jpg" "blob:b"];
     isProcessing := false |}.

(** ** The rest of the component

    The initial state, the part of the view that decides which handler can
    be called, and the run of [handleStartOptimization] cut at its
    [await]. *)

(** Lines 14-15: [useState([])] and [useState(false)]. *)
Definition initial_state : AppState :=
  {| images := []; isProcessing := false |}.

(** Line 159: the start button is rendered ([images.length > 0]). *)
Definition start_shown (st : AppState) : bool :=
  Nat.ltb 0 (List.length (images st)).

(** Line 163: [disabled={isProcessing}]. *)
Definition start_disabled (st : AppState) : bool := isProcessing st.

(** Line 170: the label of the start button. *)
Definition start_label (st : AppState) : string :=
  if isProcessing st then "処理中..." else "一括最適化を開始".

(** Lines 159 and 174: the download button sits inside the block of the
    start button. *)
Definition download_rendered (st : AppState) : bool :=
  start_shown st && download_shown st.

(** Line 55, what [handleStartOptimization] does before it suspends at the
    [await]. *)
Definition run_start : list Event := [SetIsProcessing true].

(** Lines 57-72, what it does once the awaited [Promise.all] has settled;
    [snapshot] is the [images] the handler closed over when it was called. *)
Definition run_finish (has2d : bool)
           (toDataURL : Canvas -> string -> number -> string)
           (loads : nat -> string -> option HTMLImage)
           (snapshot : list ImageData) : list Event :=
  match optimizeAll has2d toDataURL loads snapshot with
  | Resolved updatedImages =>
      [SetImages updatedImages; SetIsProcessing false;
       Alert completion_message]
  | Pending => []
  end.

(** Handlers called one after the other, each on the state the one before
    left. *)
Fixpoint run_handlers (hs : list (AppState -> list Event)) (st : AppState)
  : AppState :=
  match hs with
  | [] => st
  | h :: hs' => run_handlers hs' (run_events st (h st))
  end.

(** What can run on the state: the three handlers of the component, with
    whatever the browser answers, and the two halves of a run whose
    [await] other handlers get in between, with whatever batch it closed
    over.  [toDataURL] returns a data URL, which is never the empty
    string (the least it returns is ["data:,"]). *)
Inductive is_handler : (AppState -> list Event) -> Prop :=
| is_fileChange rid url files :
    is_handler (handleFileChange rid url files)
| is_startOptimization has2d toDataURL loads :
    (forall c t q, toDataURL c t q <> ""%string) ->
    is_handler (handleStartOptimization has2d toDataURL loads)
| is_downloadAllAsZip generates :
    is_handler (downloadAllAsZip generates)
| is_run_start :
    is_handler (fun _ => run_start)
| is_run_finish has2d toDataURL loads snapshot :
    (forall c t q, toDataURL c t q <> ""%string) ->
    is_handler (fun _ => run_finish has2d toDataURL loads snapshot).

Definition is_fileChange_handler (h : AppState -> list Event) : Prop :=
  exists rid url files, h = handleFileChange rid url files.

(** An item that is either fresh or finished: never [processing]. *)
Definition item_settled (img : ImageData) : Prop :=
  (status img = idle /\ resultUrl img = None) \/
  (status img = done /\ truthy (resultUrl img) = true /\
   preview img = match resultUrl img with Some u => u | None => ""%string end).

Definition is_ready (img : ImageData) : bool := truthy (resultUrl img).

(** [s] holds no comma. *)
Definition no_comma (s : string) : bool :=
  negb (existsb (fun c => Ascii.eqb c ",") (list_ascii_of_string s)).

Definition swap (p : number * number) : number * number := (snd p, fst p).

Definition one_in_2_40 : Q := 1 # 1099511627776.

(** An item as [handleFileChange] makes it. *)
Definition fresh_item (i u : string) (f : File) : ImageData :=
  {| id := i; file := f; preview := u; status := idle; resultUrl := None |}.

Definition sample_files : list File :=
  [mkFile "cat.png" 4096; mkFile "dog.final.jpeg" 10240; mkFile "notes" 12].

Definition sample_randomId : nat -> string := fun _ => "k3x9a"%string.

Definition sample_createObjectURL : nat -> File -> string :=
  fun _ f => ("blob:" ++ name f)%string.

(** * Properties *)

Local Open Scope Z_scope.

(** ** Binary64 arithmetic

    What [SpecFloat]'s rounding does on the numbers the resize step meets:
    integers below 2^53 and the quotient and product taken of them. *)

(** *** Bit lengths and shifts *)

Lemma digits_bounds (p : positive) :
  2 ^ (Zpos (digits2_pos p) - 1) <= Zpos p < 2 ^ Zpos (digits2_pos p).
Proof.
  induction p as [p IH|p IH|]; simpl digits2_pos.
  - rewrite Pos2Z.inj_succ, (Pos2Z.inj_xI p).
    replace (Z.succ (Zpos (digits2_pos p)) - 1)
      with (Z.succ (Zpos (digits2_pos p) - 1)) by lia.
    rewrite !Z.pow_succ_r by lia.
    destruct IH as [IH1 IH2]. revert IH1 IH2.
    generalize (2 ^ (Zpos (digits2_pos p) - 1)) (2 ^ Zpos (digits2_pos p)).
    intros; lia.
  - rewrite Pos2Z.inj_succ, (Pos2Z.inj_xO p).
    replace (Z.succ (Zpos (digits2_pos p)) - 1)
      with (Z.succ (Zpos (digits2_pos p) - 1)) by lia.
    rewrite !Z.pow_succ_r by lia.
    destruct IH as [IH1 IH2]. revert IH1 IH2.
    generalize (2 ^ (Zpos (digits2_pos p) - 1)) (2 ^ Zpos (digits2_pos p)).
    intros; lia.
  - simpl. lia.
Qed.

(** [digits2_pos p] is the only [k] with [2^(k-1) <= p < 2^k]. *)
Lemma digits_unique (p : positive) (k : Z) :
  2 ^ (k - 1) <= Zpos p < 2 ^ k -> Zpos (digits2_pos p) = k.
Proof.
  intros [Hlo Hhi]. destruct (digits_bounds p) as [Dlo Dhi].
  set (d := Zpos (digits2_pos p)) in *.
  assert (0 < k).
  { destruct (Z.le_gt_cases k 0) as [Hk|]; [|assumption].
    assert (2 ^ k <= 2 ^ 0) by (apply Z.pow_le_mono_r; lia).
    simpl in *. lia. }
  destruct (Z.lt_trichotomy d k) as [Hlt|[Heq|Hgt]]; [|assumption|].
  - assert (2 ^ d <= 2 ^ (k - 1)) by (apply Z.pow_le_mono_r; lia). lia.
  - assert (2 ^ k <= 2 ^ (d - 1)) by (apply Z.pow_le_mono_r; lia). lia.
Qed.

(** Shifting a mantissa right by [n] bits divides it by [2^n]. *)
Lemma shr_1_m (mrs : shr_record) :
  0 <= shr_m mrs -> shr_m (shr_1 mrs) = shr_m mrs / 2.
Proof.
  destruct mrs as [m r s]. simpl. intros Hm.
  destruct m as [|q|q]; [reflexivity| |lia].
  destruct q as [q|q|]; simpl.
  - rewrite (Pos2Z.inj_xI q). apply Z.div_unique with 1; lia.
  - rewrite (Pos2Z.inj_xO q). apply Z.div_unique with 0; lia.
  - reflexivity.
Qed.

Lemma shr_iter_m (p : positive) (mrs : shr_record) :
  0 <= shr_m mrs ->
  shr_m (iter_pos shr_1 p mrs) = shr_m mrs / 2 ^ Zpos p.
Proof.
  revert mrs. induction p as [p IH|p IH|]; intros mrs Hm; simpl iter_pos.
  - assert (H1 : 0 <= shr_m (shr_1 mrs))
      by (rewrite shr_1_m by assumption; apply Z.div_pos; lia).
    assert (H2 : 0 <= shr_m (iter_pos shr_1 p (shr_1 mrs)))
      by (rewrite IH by assumption; apply Z.div_pos; lia).
    rewrite IH, IH, shr_1_m by assumption.
    rewrite !Z.div_div by lia.
    f_equal. rewrite (Pos2Z.inj_xI p).
    replace (2 * Zpos p + 1) with (1 + Zpos p + Zpos p) by lia.
    rewrite !Z.pow_add_r by lia. simpl (2 ^ 1). lia.
  - assert (H2 : 0 <= shr_m (iter_pos shr_1 p mrs))
      by (rewrite IH by assumption; apply Z.div_pos; lia).
    rewrite IH, IH by assumption.
    rewrite !Z.div_div by lia.
    f_equal. rewrite (Pos2Z.inj_xO p).
    replace (2 * Zpos p) with (Zpos p + Zpos p) by lia.
    rewrite !Z.pow_add_r by lia. lia.
  - now rewrite shr_1_m.
Qed.

Lemma shr_record_of_loc_m m l : shr_m (shr_record_of_loc m l) = m.
Proof. destruct l as [|[| |]]; reflexivity. Qed.

Lemma shr_m_e (mrs : shr_record) (e n : Z) :
  0 <= shr_m mrs -> 0 <= n ->
  shr_m (fst (shr mrs e n)) = shr_m mrs / 2 ^ n /\ snd (shr mrs e n) = e + n.
Proof.
  intros Hm Hn. unfold shr. destruct n as [|p|p]; simpl fst; simpl snd.
  - rewrite Z.pow_0_r, Z.div_1_r. lia.
  - split; [now apply shr_iter_m|reflexivity].
  - lia.
Qed.

Lemma round_nearest_even_cases m l :
  round_nearest_even m l = m \/ round_nearest_even m l = m + 1.
Proof.
  unfold round_nearest_even.
  destruct l as [|[| |]]; auto. destruct (Z.even m); auto.
Qed.

(** *** Rounding to 53 bits *)

(** Away from the subnormal range the exponent of a number of magnitude
    [2^e] is [e - 53]. *)
Lemma fexp_normal (e : Z) : -1074 <= e - 53 -> fexp 53 1024 e = e - 53.
Proof. intros H. unfold fexp, emin. lia. Qed.

Lemma shr_fexp_spec (m : positive) (e : Z) (l : location) :
  let n := Zpos (digits2_pos m) - 53 in
  0 <= n -> -1074 <= e + n ->
  shr_m (fst (shr_fexp 53 1024 (Zpos m) e l)) = Zpos m / 2 ^ n /\
  snd (shr_fexp 53 1024 (Zpos m) e l) = e + n.
Proof.
  intros n Hn He. unfold shr_fexp. simpl Zdigits2.
  rewrite fexp_normal by (unfold n in He; lia).
  replace (Zpos (digits2_pos m) + e - 53 - e) with n by (unfold n; lia).
  rewrite <- (shr_record_of_loc_m (Zpos m) l) at 2.
  apply shr_m_e; [rewrite shr_record_of_loc_m; lia|assumption].
Qed.

Lemma div_pow2_normal (m : positive) :
  let d := Zpos (digits2_pos m) in
  53 <= d -> 2 ^ 52 <= Zpos m / 2 ^ (d - 53) < 2 ^ 53.
Proof.
  intros d Hd. destruct (digits_bounds m) as [Hlo Hhi]. fold d in Hlo, Hhi.
  assert (E1 : 2 ^ (d - 1) = 2 ^ 52 * 2 ^ (d - 53))
    by (rewrite <- Z.pow_add_r by lia; f_equal; lia).
  assert (E2 : 2 ^ d = 2 ^ 53 * 2 ^ (d - 53))
    by (rewrite <- Z.pow_add_r by lia; f_equal; lia).
  rewrite E1 in Hlo. rewrite E2 in Hhi.
  assert (Hp : 0 < 2 ^ (d - 53)) by (apply Z.pow_pos_nonneg; lia).
  split.
  - apply Z.div_le_lower_bound; lia.
  - apply Z.div_lt_upper_bound; lia.
Qed.

(** Rounding a mantissa [mx] of [d >= 53] bits: the result has a full
    mantissa, which is [mx / 2^(d-53)] or one more, possibly after one
    further shift when the increment carried into a 54th bit. *)
Lemma bra_round (s : bool) (mx : positive) (ex : Z) (lx : location) :
  let d := Zpos (digits2_pos mx) in
  53 <= d -> -1074 <= ex + (d - 53) -> ex + (d - 53) < 971 ->
  exists m e k,
    binary_round_aux 53 1024 s (Zpos mx) ex lx = S754_finite s m e /\
    2 ^ 52 <= Zpos m < 2 ^ 53 /\
    e = ex + (d - 53) + k /\ 0 <= k <= 1 /\
    Zpos mx / 2 ^ (d - 53) <= Zpos m * 2 ^ k <= Zpos mx / 2 ^ (d - 53) + 1.
Proof.
  intros d Hd Hlo Hhi. unfold binary_round_aux.
  destruct (shr_fexp_spec mx ex lx) as [Hm1 He1]; [fold d; lia..|].
  fold d in Hm1, He1.
  destruct (shr_fexp 53 1024 (Zpos mx) ex lx) as [mrs' e'].
  simpl fst in Hm1; simpl snd in He1.
  assert (Hn := div_pow2_normal mx Hd). fold d in Hn.
  set (lo := Zpos mx / 2 ^ (d - 53)) in *.
  set (r := round_nearest_even (shr_m mrs') (loc_of_shr_record mrs')).
  assert (Hr : r = lo \/ r = lo + 1).
  { unfold r. rewrite <- Hm1. apply round_nearest_even_cases. }
  destruct r as [|pr|pr] eqn:Er; [lia| |lia].
  destruct (Z.eq_dec (Zpos pr) (2 ^ 53)) as [Htop|Htop].
  - (* the mantissa was rounded up to 2^53 *)
    assert (Hdig : Zpos (digits2_pos pr) = 54)
      by (apply digits_unique; rewrite Htop; simpl; lia).
    destruct (shr_fexp_spec pr e' loc_Exact) as [Hm2 He2];
      [rewrite Hdig; lia..|].
    rewrite Hdig in Hm2, He2.
    destruct (shr_fexp 53 1024 (Zpos pr) e' loc_Exact) as [mrs'' e''].
    simpl fst in Hm2; simpl snd in He2.
    rewrite Htop in Hm2. change (2 ^ 53 / 2 ^ (54 - 53)) with (2 ^ 52) in Hm2.
    rewrite Hm2. change (2 ^ 52) with (Zpos 4503599627370496).
    replace (e'' <=? 1024 - 53) with true by (symmetry; apply Z.leb_le; lia).
    exists 4503599627370496%positive, e'', 1. repeat split; try lia.
  - assert (Hdig : Zpos (digits2_pos pr) = 53)
      by (apply digits_unique; simpl; lia).
    destruct (shr_fexp_spec pr e' loc_Exact) as [Hm2 He2];
      [rewrite Hdig; lia..|].
    rewrite Hdig in Hm2, He2.
    destruct (shr_fexp 53 1024 (Zpos pr) e' loc_Exact) as [mrs'' e''].
    simpl fst in Hm2; simpl snd in He2.
    change (2 ^ (53 - 53)) with 1 in Hm2. rewrite Z.div_1_r in Hm2.
    rewrite Hm2.
    replace (e'' <=? 1024 - 53) with true by (symmetry; apply Z.leb_le; lia).
    exists pr, e'', 0. rewrite Z.pow_0_r, Z.mul_1_r.
    repeat split; try lia.
Qed.

(** A mantissa of exactly 53 bits is not changed. *)
Lemma bra_exact (s : bool) (m : positive) (e : Z) :
  Zpos (digits2_pos m) = 53 -> -1074 <= e <= 971 ->
  binary_round_aux 53 1024 s (Zpos m) e loc_Exact = S754_finite s m e.
Proof.
  intros Hd He. unfold binary_round_aux, shr_fexp. simpl Zdigits2.
  rewrite Hd, fexp_normal by lia.
  replace (53 + e - 53 - e) with 0 by lia.
  cbn [shr]. cbv iota beta.
  cbn [shr_record_of_loc shr_m loc_of_shr_record round_nearest_even Zdigits2].
  rewrite Hd, fexp_normal by lia.
  replace (53 + e - 53 - e) with 0 by lia.
  cbn [shr shr_m]. cbv iota beta.
  replace (e <=? 1024 - 53) with true by (symmetry; apply Z.leb_le; lia).
  reflexivity.
Qed.

(** *** Integers as doubles *)

Lemma iter_xO_spec (p n : positive) :
  Zpos (Pos.iter xO p n) = Zpos p * 2 ^ Zpos n.
Proof.
  induction n as [|n IH] using Pos.peano_ind.
  - simpl. lia.
  - rewrite Pos.iter_succ, (Pos2Z.inj_xO (Pos.iter xO p n)), IH.
    rewrite Pos2Z.inj_succ, Z.pow_succ_r by lia. lia.
Qed.

(** An integer below 2^53 is a double: [ofZ] only shifts it into a full
    mantissa. *)
Lemma ofZ_pos (a : Z) :
  0 < a < 2 ^ 53 ->
  exists m e, ofZ a = S754_finite false m e /\
              2 ^ 52 <= Zpos m < 2 ^ 53 /\ -52 <= e <= 0 /\
              Zpos m = a * 2 ^ (- e).
Proof.
  intros [Ha0 Ha]. destruct a as [|p|p]; try lia.
  destruct (digits_bounds p) as [Dlo Dhi].
  set (d := Zpos (digits2_pos p)) in *.
  assert (Hd : 1 <= d <= 53).
  { split; [unfold d; lia|].
    destruct (Z.le_gt_cases d 53) as [|Hgt]; [assumption|].
    assert (2 ^ 53 <= 2 ^ (d - 1)) by (apply Z.pow_le_mono_r; lia). lia. }
  unfold ofZ, binary_normalize, binary_round, prec, emax.
  fold d. rewrite fexp_normal by lia. unfold shl_align.
  replace (d + 0 - 53 - 0) with (d - 53) by lia.
  assert (Hsplit : 2 ^ 53 = 2 ^ d * 2 ^ (53 - d))
    by (rewrite <- Z.pow_add_r by lia; f_equal; lia).
  assert (Hsplit' : 2 ^ 52 = 2 ^ (d - 1) * 2 ^ (53 - d))
    by (rewrite <- Z.pow_add_r by lia; f_equal; lia).
  assert (Hpw : 0 < 2 ^ (53 - d)) by (apply Z.pow_pos_nonneg; lia).
  destruct (d - 53) as [|q|q] eqn:Eq; try lia.
  - (* a full mantissa already *)
    assert (d = 53) by lia.
    exists p, 0. rewrite bra_exact by (fold d; lia).
    replace (d + 0 - 53) with 0 by lia.
    replace (53 - d) with 0 in * by lia. simpl in *.
    replace (d - 1) with 52 in Dlo by lia.
    repeat split; try lia.
  - assert (Hq : Zpos q = 53 - d) by lia.
    assert (Hm : Zpos (Pos.iter xO p q) = Zpos p * 2 ^ (53 - d))
      by (rewrite iter_xO_spec, Hq; reflexivity).
    exists (Pos.iter xO p q), (Zneg q).
    rewrite bra_exact.
    + replace (- Zneg q) with (53 - d) by lia.
      repeat split; try lia; try exact Hm;
        [f_equal; lia | rewrite Hm; nia | rewrite Hm; nia].
    + apply digits_unique. rewrite Hm.
      change (2 ^ (53 - 1)) with (2 ^ 52). nia.
    + lia.
Qed.

Lemma ofZ_0 : ofZ 0 = S754_zero false.
Proof. reflexivity. Qed.

(** On doubles that hold integers, [>] is the order of the integers. *)
Lemma gt_ofZ (a b : Z) :
  0 <= a < 2 ^ 53 -> 0 <= b < 2 ^ 53 ->
  gt (ofZ a) (ofZ b) = (b <? a).
Proof.
  intros Ha Hb. unfold gt, SFltb.
  destruct (Z.eq_dec a 0) as [->|Ha0]; destruct (Z.eq_dec b 0) as [->|Hb0].
  - reflexivity.
  - destruct (ofZ_pos b) as (m & e & -> & _); [lia|].
    rewrite ofZ_0. simpl. symmetry. apply Z.ltb_ge. lia.
  - destruct (ofZ_pos a) as (m & e & -> & _); [lia|].
    rewrite ofZ_0. simpl. symmetry. apply Z.ltb_lt. lia.
  - destruct (ofZ_pos a) as (ma & ea & -> & Hma & Hea & Ea); [lia|].
    destruct (ofZ_pos b) as (mb & eb & -> & Hmb & Heb & Eb); [lia|].
    simpl SFcompare.
    assert (Pa : 0 < 2 ^ (- ea)) by (apply Z.pow_pos_nonneg; lia).
    assert (Pb : 0 < 2 ^ (- eb)) by (apply Z.pow_pos_nonneg; lia).
    destruct (Z.compare_spec eb ea) as [Heq|Hlt|Hgt].
    + subst eb. rewrite Pos.compare_cont_spec. simpl Pos.switch_Eq.
      change (Pos.compare mb ma) with (Z.compare (Zpos mb) (Zpos ma)).
      rewrite Ea, Eb.
      destruct (Z.compare_spec (b * 2 ^ (- ea)) (a * 2 ^ (- ea)));
        symmetry; [apply Z.ltb_ge|apply Z.ltb_lt|apply Z.ltb_ge]; nia.
    + (* b has the smaller exponent *)
      symmetry. apply Z.ltb_lt.
      assert (E : 2 ^ (- eb) = 2 ^ (ea - eb) * 2 ^ (- ea))
        by (rewrite <- Z.pow_add_r by lia; f_equal; lia).
      assert (2 ^ 1 <= 2 ^ (ea - eb)) by (apply Z.pow_le_mono_r; lia).
      change (2 ^ 1) with 2 in *.
      rewrite E in Eb. nia.
    + symmetry. apply Z.ltb_ge.
      assert (E : 2 ^ (- ea) = 2 ^ (eb - ea) * 2 ^ (- eb))
        by (rewrite <- Z.pow_add_r by lia; f_equal; lia).
      assert (2 ^ 1 <= 2 ^ (eb - ea)) by (apply Z.pow_le_mono_r; lia).
      change (2 ^ 1) with 2 in *.
      rewrite E in Ea. nia.
Qed.

(** *** One product, one quotient *)

Lemma digits_between (p : positive) (lo hi : Z) :
  0 <= lo -> 2 ^ lo <= Zpos p < 2 ^ hi ->
  lo < Zpos (digits2_pos p) <= hi.
Proof.
  intros H0 [Hlo Hhi]. destruct (digits_bounds p) as [Dlo Dhi].
  set (d := Zpos (digits2_pos p)) in *. split.
  - destruct (Z.lt_ge_cases lo d) as [|Hc]; [assumption|].
    assert (2 ^ d <= 2 ^ lo) by (apply Z.pow_le_mono_r; lia). lia.
  - destruct (Z.le_gt_cases d hi) as [|Hc]; [assumption|].
    assert (2 ^ hi <= 2 ^ (d - 1)) by (apply Z.pow_le_mono_r; lia). lia.
Qed.

(** What rounding to 53 bits does to a mantissa [M] of [53 + n] bits: the
    result, put back on [M]'s scale, is within [M / 2^52] of [M]; the same
    holds for any [M + t] with [0 <= t < 1] (a quotient with its
    remainder), which is what the second bound is used for through [A]
    and [B]. *)
Lemma scaled_enclosure (M lo N mk A B : Z) :
  0 < N -> 0 < B -> 2 ^ 52 <= lo ->
  lo * N <= M < (lo + 1) * N ->
  lo <= mk <= lo + 1 ->
  M * B <= A < (M + 1) * B ->
  (2 ^ 52 - 1) * A <= 2 ^ 52 * (mk * N) * B <= (2 ^ 52 + 1) * A.
Proof.
  intros HN HB Hlo [HM1 HM2] [Hk1 Hk2] [HA1 HA2].
  assert (H1 : lo * N * B <= A) by nia.
  assert (H2 : A < (lo + 1) * N * B) by nia.
  assert (H3 : 2 ^ 52 * (N * B) <= lo * N * B) by nia.
  assert (H4 : lo * N * B <= mk * N * B <= (lo + 1) * N * B) by nia.
  assert (HP : 1 < 2 ^ 52) by reflexivity.
  replace (2 ^ 52 * (mk * N) * B) with (2 ^ 52 * (mk * N * B)) by ring.
  replace ((lo + 1) * N * B) with (lo * N * B + N * B) in * by ring.
  revert HP H1 H2 H3 H4.
  generalize (2 ^ 52) (lo * N * B) (mk * N * B) (N * B).
  intros P L K NB HP H1 H2 H3 H4.
  assert (U1 : P * K <= P * (L + NB)) by (apply Z.mul_le_mono_nonneg_l; lia).
  assert (U2 : P * L <= P * A) by (apply Z.mul_le_mono_nonneg_l; lia).
  assert (L1 : (P - 1) * A <= (P - 1) * (L + NB))
    by (apply Z.mul_le_mono_nonneg_l; lia).
  assert (L2 : P * L <= P * K) by (apply Z.mul_le_mono_nonneg_l; lia).
  lia.
Qed.

(** The product of two normal numbers, on the scale of the product of
    the mantissas ([2^52] stands for one part in [2^52]). *)
Lemma mul_normal (m1 m2 : positive) (e1 e2 : Z) :
  2 ^ 52 <= Zpos m1 < 2 ^ 53 -> 2 ^ 52 <= Zpos m2 < 2 ^ 53 ->
  -1100 <= e1 + e2 <= 800 ->
  exists m e j,
    mul (S754_finite false m1 e1) (S754_finite false m2 e2)
    = S754_finite false m e /\
    2 ^ 52 <= Zpos m < 2 ^ 53 /\
    e = e1 + e2 + j /\ 52 <= j <= 54 /\
    (2 ^ 52 - 1) * (Zpos m1 * Zpos m2)
    <= 2 ^ 52 * (Zpos m * 2 ^ j)
    <= (2 ^ 52 + 1) * (Zpos m1 * Zpos m2).
Proof.
  intros H1 H2 He. unfold mul, SFmul, prec, emax. simpl xorb.
  assert (HM : 2 ^ 104 <= Zpos (m1 * m2) < 2 ^ 106).
  { rewrite Pos2Z.inj_mul.
    change (2 ^ 104) with (2 ^ 52 * 2 ^ 52).
    change (2 ^ 106) with (2 ^ 53 * 2 ^ 53). nia. }
  assert (Hd := digits_between (m1 * m2) 104 106 ltac:(lia) HM).
  destruct (bra_round false (m1 * m2) (e1 + e2) loc_Exact)
    as (m & e & k & Hbra & Hm & Hx & Hk & Hlo); [lia..|].
  assert (Hn := div_pow2_normal (m1 * m2) ltac:(lia)). cbv zeta in Hn.
  set (n := Zpos (digits2_pos (m1 * m2)) - 53) in *.
  exists m, e, (n + k). split; [exact Hbra|]. split; [exact Hm|].
  split; [lia|]. split; [lia|].
  assert (HN : 0 < 2 ^ n) by (apply Z.pow_pos_nonneg; lia).
  rewrite <- Pos2Z.inj_mul.
  assert (HMlo := Z.mul_div_le (Zpos (m1 * m2)) (2 ^ n) HN).
  assert (HMhi := Z.mul_succ_div_gt (Zpos (m1 * m2)) (2 ^ n) HN).
  pose proof (scaled_enclosure (Zpos (m1 * m2))
                (Zpos (m1 * m2) / 2 ^ n) (2 ^ n) (Zpos m * 2 ^ k)
                (Zpos (m1 * m2)) 1) as Henc.
  replace (Zpos m * 2 ^ (n + k)) with (Zpos m * 2 ^ k * 2 ^ n * 1)
    by (rewrite Z.pow_add_r by lia; ring).
  rewrite Z.mul_assoc. apply Henc; lia.
Qed.

(** The quotient of two normal numbers, likewise. *)
Lemma div_normal (m1 m2 : positive) (e1 e2 : Z) :
  2 ^ 52 <= Zpos m1 < 2 ^ 53 -> 2 ^ 52 <= Zpos m2 < 2 ^ 53 ->
  -1000 <= e1 - e2 <= 900 ->
  exists m e j,
    div (S754_finite false m1 e1) (S754_finite false m2 e2)
    = S754_finite false m e /\
    2 ^ 52 <= Zpos m < 2 ^ 53 /\
    e = e1 - e2 - 53 + j /\ 0 <= j <= 2 /\
    (2 ^ 52 - 1) * (Zpos m1 * 2 ^ 53)
    <= 2 ^ 52 * (Zpos m * 2 ^ j) * Zpos m2
    <= (2 ^ 52 + 1) * (Zpos m1 * 2 ^ 53).
Proof.
  intros H1 H2 He. unfold div, SFdiv, SFdiv_core_binary, prec, emax.
  simpl xorb. simpl Zdigits2.
  rewrite (digits_unique m1 53), (digits_unique m2 53)
    by (change (2 ^ (53 - 1)) with (2 ^ 52); assumption).
  rewrite fexp_normal by lia.
  replace (Z.min (53 + e1 - (53 + e2) - 53) (e1 - e2)) with (e1 - e2 - 53)
    by lia.
  replace (e1 - e2 - (e1 - e2 - 53)) with 53 by lia.
  rewrite Z.shiftl_mul_pow2 by lia.
  assert (Hdm := Z_div_mod (Zpos m1 * 2 ^ 53) (Zpos m2) ltac:(lia)).
  destruct (Z.div_eucl (Zpos m1 * 2 ^ 53) (Zpos m2)) as [q r].
  destruct Hdm as [Hq Hr].
  assert (Hqr : 2 ^ 52 <= q < 2 ^ 54).
  { change (2 ^ 54) with (2 * 2 ^ 53).
    assert (P : 2 ^ 53 = 2 * 2 ^ 52) by reflexivity.
    revert P H1 H2 Hq Hr. generalize (2 ^ 53) (2 ^ 52). intros; nia. }
  destruct q as [|pq|pq]; try lia.
  assert (Hd := digits_between pq 52 54 ltac:(lia) Hqr).
  destruct (bra_round false pq (e1 - e2 - 53) (new_location (Zpos m2) r))
    as (m & e & k & Hbra & Hm & Hx & Hk & Hlo); [lia..|].
  assert (Hn := div_pow2_normal pq ltac:(lia)). cbv zeta in Hn.
  set (n := Zpos (digits2_pos pq) - 53) in *.
  exists m, e, (n + k). split; [exact Hbra|]. split; [exact Hm|].
  split; [lia|]. split; [lia|].
  assert (HN : 0 < 2 ^ n) by (apply Z.pow_pos_nonneg; lia).
  assert (HMlo := Z.mul_div_le (Zpos pq) (2 ^ n) HN).
  assert (HMhi := Z.mul_succ_div_gt (Zpos pq) (2 ^ n) HN).
  pose proof (scaled_enclosure (Zpos pq)
                (Zpos pq / 2 ^ n) (2 ^ n) (Zpos m * 2 ^ k)
                (Zpos m1 * 2 ^ 53) (Zpos m2)) as Henc.
  replace (Zpos m * 2 ^ (n + k)) with (Zpos m * 2 ^ k * 2 ^ n)
    by (rewrite Z.pow_add_r by lia; ring).
  apply Henc; lia.
Qed.

(** *** The same in rationals *)

Lemma pow2_pos (e : Z) : (0 < 2 ^ e)%Q.
Proof. apply Qpower_0_lt. reflexivity. Qed.

Lemma pow2_add (a b : Z) : (2 ^ (a + b) == 2 ^ a * 2 ^ b)%Q.
Proof. apply Qpower_plus. discriminate. Qed.

Lemma pow2_inject (n : Z) : 0 <= n -> (inject_Z (2 ^ n) == 2 ^ n)%Q.
Proof. intros H. now rewrite Zpower_Qpower. Qed.

Lemma toQ_finite (m : positive) (e : Z) :
  toQ (S754_finite false m e) = (inject_Z (Zpos m) * 2 ^ e)%Q.
Proof. reflexivity. Qed.

(** [ofZ] is exact below 2^53. *)
Lemma toQ_ofZ (a : Z) : 0 <= a < 2 ^ 53 -> (toQ (ofZ a) == inject_Z a)%Q.
Proof.
  intros Ha. destruct (Z.eq_dec a 0) as [->|Hn]; [reflexivity|].
  destruct (ofZ_pos a) as (m & e & -> & Hm & He & Hme); [lia|].
  rewrite toQ_finite, Hme, inject_Z_mult, pow2_inject by lia.
  rewrite <- Qmult_assoc, <- pow2_add.
  replace (- e + e) with 0 by lia. simpl (2 ^ 0)%Q. ring.
Qed.

Lemma Z2Q_le (x y : Z) : x <= y -> (inject_Z x <= inject_Z y)%Q.
Proof. intros H. now rewrite <- Zle_Qle. Qed.


(** One rounding is off by at most one part in 2^52
    (4503599627370496 is 2^52). *)
Lemma mul_rel (l1 h1 l2 h2 : Z) (x y : number) :
  normal l1 h1 x -> normal l2 h2 y ->
  -1100 <= l1 + l2 -> h1 + h2 <= 800 ->
  normal (l1 + l2 + 52) (h1 + h2 + 54) (mul x y) /\
  ((4503599627370496 - 1) * (toQ x * toQ y) <= 4503599627370496 * toQ (mul x y)
   /\ 4503599627370496 * toQ (mul x y)
      <= (4503599627370496 + 1) * (toQ x * toQ y))%Q.
Proof.
  intros (m1 & e1 & -> & Hm1 & He1) (m2 & e2 & -> & Hm2 & He2) Hl Hh.
  destruct (mul_normal m1 m2 e1 e2 Hm1 Hm2 ltac:(lia))
    as (m & e & j & -> & Hm & -> & Hj & Hlo & Hhi).
  split; [exists m, (e1 + e2 + j); repeat split; lia|].
  change (2 ^ 52 - 1) with 4503599627370495 in Hlo.
  change (2 ^ 52 + 1) with 4503599627370497 in Hhi.
  change (2 ^ 52) with 4503599627370496 in Hlo, Hhi.
  apply Z2Q_le in Hlo, Hhi.
  rewrite !inject_Z_mult, (pow2_inject j) in Hlo, Hhi by lia.
  change (inject_Z 4503599627370495) with 4503599627370495%Q in Hlo.
  change (inject_Z 4503599627370497) with 4503599627370497%Q in Hhi.
  change (inject_Z 4503599627370496) with 4503599627370496%Q in Hlo, Hhi.
  rewrite !toQ_finite, !pow2_add.
  assert (P1 := pow2_pos e1). assert (P2 := pow2_pos e2).
  assert (P12 : (0 < 2 ^ e1 * 2 ^ e2)%Q) by now apply Qmult_lt_0_compat.
  revert Hlo Hhi P12.
  generalize (inject_Z (Zpos m1)) (inject_Z (Zpos m2)) (inject_Z (Zpos m))
             (2 ^ e1)%Q (2 ^ e2)%Q (2 ^ j)%Q.
  intros q1 q2 q c1 c2 cj Hlo Hhi P12.
  setoid_replace (q1 * c1 * (q2 * c2))%Q with (q1 * q2 * (c1 * c2))%Q by ring.
  setoid_replace (q * (c1 * c2 * cj))%Q with (q * cj * (c1 * c2))%Q by ring.
  revert Hlo Hhi P12.
  generalize (q1 * q2)%Q (q * cj)%Q (c1 * c2)%Q.
  intros a b c Hlo Hhi Hc. split; nra.
Qed.

Lemma div_rel (l1 h1 l2 h2 : Z) (x y : number) :
  normal l1 h1 x -> normal l2 h2 y ->
  -1000 <= l1 - h2 -> h1 - l2 <= 900 ->
  normal (l1 - h2 - 53) (h1 - l2 - 51) (div x y) /\
  ((4503599627370496 - 1) * toQ x <= 4503599627370496 * (toQ (div x y) * toQ y)
   /\ 4503599627370496 * (toQ (div x y) * toQ y)
      <= (4503599627370496 + 1) * toQ x)%Q.
Proof.
  intros (m1 & e1 & -> & Hm1 & He1) (m2 & e2 & -> & Hm2 & He2) Hl Hh.
  destruct (div_normal m1 m2 e1 e2 Hm1 Hm2 ltac:(lia))
    as (m & e & j & -> & Hm & -> & Hj & Hlo & Hhi).
  split; [exists m, (e1 - e2 - 53 + j); repeat split; lia|].
  change (2 ^ 52 - 1) with 4503599627370495 in Hlo.
  change (2 ^ 52 + 1) with 4503599627370497 in Hhi.
  change (2 ^ 52) with 4503599627370496 in Hlo, Hhi.
  apply Z2Q_le in Hlo, Hhi.
  rewrite !inject_Z_mult, (pow2_inject j), (pow2_inject 53) in Hlo, Hhi by lia.
  change (inject_Z 4503599627370495) with 4503599627370495%Q in Hlo.
  change (inject_Z 4503599627370497) with 4503599627370497%Q in Hhi.
  change (inject_Z 4503599627370496) with 4503599627370496%Q in Hlo, Hhi.
  rewrite !toQ_finite.
  replace e1 with (53 + (e1 - 53)) at 1 4 by lia.
  replace (e1 - e2 - 53 + j) with (j + (e1 - 53) + - e2) by lia.
  rewrite !pow2_add.
  assert (P1 := pow2_pos (e1 - 53)).
  assert (P2 : (2 ^ (- e2) * 2 ^ e2 == 1)%Q)
    by (rewrite <- pow2_add; replace (- e2 + e2) with 0 by lia; reflexivity).
  revert Hlo Hhi P1 P2.
  generalize (inject_Z (Zpos m1)) (inject_Z (Zpos m2)) (inject_Z (Zpos m))
             (2 ^ (e1 - 53))%Q (2 ^ e2)%Q (2 ^ (- e2))%Q (2 ^ j)%Q (2 ^ 53)%Q.
  intros q1 q2 q c1 c2 c2' cj c53 Hlo Hhi P1 P2.
  setoid_replace (q * (cj * c1 * c2') * (q2 * c2))%Q
    with (q * cj * q2 * c1 * (c2' * c2))%Q by ring.
  rewrite P2.
  setoid_replace (q1 * (c53 * c1))%Q with (q1 * c53 * c1)%Q by ring.
  setoid_replace (4503599627370496 * (q * cj) * q2)%Q
    with (4503599627370496 * (q * cj * q2))%Q in Hlo by ring.
  setoid_replace (4503599627370496 * (q * cj) * q2)%Q
    with (4503599627370496 * (q * cj * q2))%Q in Hhi by ring.
  revert Hlo Hhi.
  generalize (q1 * c53)%Q (q * cj * q2)%Q.
  intros a b Hlo Hhi. split; nra.
Qed.

Lemma ofZ_normal (a : Z) : 0 < a < 2 ^ 53 -> normal (-52) 0 (ofZ a).
Proof.
  intros Ha. destruct (ofZ_pos a Ha) as (m & e & H & Hm & He & _).
  exists m, e. auto.
Qed.


(** The scaled edge [a * (MAX_SIZE / b)] as the program computes it, with
    its two roundings, against the exact [a * MAX_SIZE / b]. *)
Lemma scaled_edge_bound (a b : Z) :
  0 < a <= b -> MAX_SIZE < b < 2 ^ 53 ->
  normal (-105) 55 (mul (ofZ a) (div (ofZ MAX_SIZE) (ofZ b))) /\
  (Qabs (toQ (mul (ofZ a) (div (ofZ MAX_SIZE) (ofZ b))) - ideal_edge a b)
   < 1 # 1099511627776)%Q.
Proof.
  intros Ha Hb. unfold ideal_edge. unfold MAX_SIZE in *.
  assert (Na := ofZ_normal a ltac:(lia)).
  assert (Nb := ofZ_normal b ltac:(lia)).
  assert (Nm := ofZ_normal 1200 ltac:(lia)).
  destruct (div_rel _ _ _ _ _ _ Nm Nb ltac:(lia) ltac:(lia)) as [Nx [Hx1 Hx2]].
  destruct (mul_rel _ _ _ _ _ _ Na Nx ltac:(lia) ltac:(lia)) as [Ny [Hy1 Hy2]].
  split; [exact Ny|].
  rewrite (toQ_ofZ a), (toQ_ofZ b), (toQ_ofZ 1200) in * by lia.
  rewrite inject_Z_mult.
  assert (HA : (0 < inject_Z a)%Q)
    by (change 0%Q with (inject_Z 0); rewrite <- Zlt_Qlt; lia).
  assert (HB : (0 < inject_Z b)%Q)
    by (change 0%Q with (inject_Z 0); rewrite <- Zlt_Qlt; lia).
  assert (HAB : (inject_Z a <= inject_Z b)%Q) by (apply Z2Q_le; lia).
  change (inject_Z 1200) with 1200%Q in *.
  revert Hx1 Hx2 Hy1 Hy2 HA HB HAB.
  generalize (toQ (mul (ofZ a) (div (ofZ 1200) (ofZ b)))).
  generalize (toQ (div (ofZ 1200) (ofZ b))).
  generalize (inject_Z a) (inject_Z b).
  intros A B X Y Hx1 Hx2 Hy1 Hy2 HA HB HAB.
  set (T := (A * 1200 / B)%Q).
  assert (HT : (T * B == A * 1200)%Q).
  { unfold T. rewrite Qmult_comm. apply Qmult_div_r.
    intros E. rewrite E in HB. discriminate. }
  assert (HT0 : (0 < T)%Q).
  { apply (Qmult_lt_r _ _ B HB). rewrite HT. nra. }
  assert (HT1 : (T <= 1200)%Q).
  { apply (Qmult_le_r _ _ B HB). rewrite HT. nra. }
  assert (Hu1 : ((4503599627370496 - 1) * T <= 4503599627370496 * (A * X))%Q).
  { apply (Qmult_le_r _ _ B HB).
    setoid_replace ((4503599627370496 - 1) * T * B)%Q
      with ((4503599627370496 - 1) * (T * B))%Q by ring.
    rewrite HT. nra. }
  assert (Hu2 : (4503599627370496 * (A * X) <= (4503599627370496 + 1) * T)%Q).
  { apply (Qmult_le_r _ _ B HB).
    setoid_replace ((4503599627370496 + 1) * T * B)%Q
      with ((4503599627370496 + 1) * (T * B))%Q by ring.
    rewrite HT. nra. }
  apply Qabs_Qlt_condition.
  revert Hu1 Hu2 Hy1 Hy2 HT0 HT1. generalize (A * X)%Q T.
  intros u t Hu1 Hu2 Hy1 Hy2 HT0 HT1. split; lra.
Qed.

(** ** The resize step *)

Lemma uint32_double (z : Z) : uint32 z -> 0 <= z < 2 ^ 53.
Proof. unfold uint32. intros [H0 H1]. split; [assumption|]. simpl in *. lia. Qed.

(** On the sizes of an image the branches are taken by the order of the
    integers. *)
Lemma resize_ofZ (W H : Z) :
  0 <= W < 2 ^ 53 -> 0 <= H < 2 ^ 53 ->
  resize (ofZ W) (ofZ H)
  = if H <? W then
      if MAX_SIZE <? W
      then (ofZ MAX_SIZE, mul (ofZ H) (div (ofZ MAX_SIZE) (ofZ W)))
      else (ofZ W, ofZ H)
    else
      if MAX_SIZE <? H
      then (mul (ofZ W) (div (ofZ MAX_SIZE) (ofZ H)), ofZ MAX_SIZE)
      else (ofZ W, ofZ H).
Proof.
  intros HW HH. unfold resize.
  rewrite !gt_ofZ by (unfold MAX_SIZE; simpl; lia). reflexivity.
Qed.

(** Scaling an edge of length zero leaves zero. *)
Lemma scaled_zero (b : Z) :
  MAX_SIZE < b < 2 ^ 53 ->
  mul (ofZ 0) (div (ofZ MAX_SIZE) (ofZ b)) = ofZ 0.
Proof.
  intros Hb. unfold MAX_SIZE in *.
  assert (Nb := ofZ_normal b ltac:(lia)).
  assert (Nm := ofZ_normal 1200 ltac:(lia)).
  destruct (div_rel _ _ _ _ _ _ Nm Nb ltac:(lia) ltac:(lia))
    as [(m & e & -> & _) _].
  reflexivity.
Qed.

(** The resize step on a wide image: width [MAX_SIZE] and, as height, the
    double [H * (MAX_SIZE / W)], within 1 unit of the exact
    [H * MAX_SIZE / W]. *)
Lemma resize_wide_image (W H : Z) :
  uint32 W -> uint32 H -> H < W -> MAX_SIZE < W ->
  resize (ofZ W) (ofZ H)
  = (ofZ MAX_SIZE, mul (ofZ H) (div (ofZ MAX_SIZE) (ofZ W))) /\
  isFinite (snd (resize (ofZ W) (ofZ H))) = true /\
  (Qabs (toQ (snd (resize (ofZ W) (ofZ H))) - ideal_edge H W) < 1)%Q.
Proof.
  intros HW HH Hlt Hmax.
  apply uint32_double in HW, HH.
  rewrite resize_ofZ by assumption.
  replace (H <? W) with true by (symmetry; apply Z.ltb_lt; lia).
  replace (MAX_SIZE <? W) with true by (symmetry; apply Z.ltb_lt; lia).
  split; [reflexivity|]. cbn [snd].
  destruct (Z.eq_dec H 0) as [->|Hn].
  - rewrite scaled_zero by lia. split; [reflexivity|].
    unfold ideal_edge. simpl. reflexivity.
  - destruct (scaled_edge_bound H W ltac:(lia) ltac:(lia))
      as [(m & e & Hy & _) Hb].
    split; [rewrite Hy; reflexivity|].
    eapply Qlt_trans; [exact Hb|reflexivity].
Qed.

(** *** The size of the canvas *)




(** [onload] encodes a canvas of the size [output_size] gives. *)
Lemma onload_bitmap_size has2d toDataURL (img : HTMLImage) :
  exists canvas,
    onload has2d toDataURL img = toDataURL canvas "image/webp"%string lit_0_8 /\
    bitmap_size canvas = output_size (img_width img) (img_height img).
Proof.
  unfold onload, output_size.
  destruct (resize (ofZ (img_width img)) (ofZ (img_height img))) as [w' h'].
  eexists. split; reflexivity.
Qed.



(** The bound of 1 unit is reached: for a 1392x145 image the exact height
    is 125, the double falls just below it and the canvas takes 124. *)
Lemma output_size_of_1392x145 :
  output_size 1392 145 = (1200, 124) /\
  (ideal_edge 145 1392 == 125)%Q /\
  (toQ (snd (resize (ofZ 1392) (ofZ 145))) < 125)%Q.
Proof. split; [|split]; vm_compute; reflexivity. Qed.






(** *** Degenerate sizes *)

(** C7 (amended).  The pipeline has no error for a degenerate size.
    Whatever the size of the loaded image, [processImage] resolves with the
    data URL of the canvas; and when the width or the height is zero, the
    resize step returns sizes by its usual rule: an edge above [MAX_SIZE]
    becomes [MAX_SIZE], any other edge, the zero one included, is kept
    (scaling zero gives zero).  A negative size cannot occur, [img.width]
    and [img.height] being unsigned. *)
Theorem C7_zero_size_is_processed
        has2d toDataURL (load : string -> option HTMLImage)
        (imgData : ImageData) (img : HTMLImage) :
  load (preview imgData) = Some img ->
  processImage has2d toDataURL load imgData
  = Resolved (onload has2d toDataURL img)
  /\
  (uint32 (img_width img) -> uint32 (img_height img) ->
   img_width img = 0 \/ img_height img = 0 ->
   resize (ofZ (img_width img)) (ofZ (img_height img))
   = (ofZ (if MAX_SIZE <? img_width img then MAX_SIZE else img_width img),
      ofZ (if MAX_SIZE <? img_height img then MAX_SIZE else img_height img))).
Proof.
  intros Hload. split.
  - unfold processImage. now rewrite Hload.
  - intros HW HH Hz. apply uint32_double in HW, HH.
    rewrite resize_ofZ by assumption.
    destruct (Z.ltb_spec MAX_SIZE (img_width img)) as [Hw|Hw];
      destruct (Z.ltb_spec MAX_SIZE (img_height img)) as [Hh|Hh];
      destruct (Z.ltb_spec (img_height img) (img_width img)) as [Hc|Hc];
      try (unfold MAX_SIZE in *; lia); try reflexivity.
    + replace (img_height img) with 0 by (unfold MAX_SIZE in *; lia).
      now rewrite (scaled_zero (img_width img)) by lia.
    + replace (img_width img) with 0 by (unfold MAX_SIZE in *; lia).
      now rewrite (scaled_zero (img_height img)) by lia.
Qed.

Lemma C7_zero_size_is_processed_witness :
  resize (ofZ 0) (ofZ 5000) = (ofZ 0, ofZ MAX_SIZE).
Proof.
  apply (proj2 (C7_zero_size_is_processed
                  true sample_toDataURL
                  (fun _ => Some (mkImage "blob:z" 0 5000))
                  (sample_item "z.png" "blob:z") (mkImage "blob:z" 0 5000)
                  eq_refl));
    unfold uint32; simpl; lia.
Defined.

(** C7 as stated fails: an image of size 0x0 that loads is resized to
    0x0 and [processImage] resolves with the data URL of that canvas; it
    does not fail. *)
Lemma C7_zero_by_zero_image_resolves :
  resize (ofZ 0) (ofZ 0) = (ofZ 0, ofZ 0) /\
  processImage true sample_toDataURL (fun _ => Some (mkImage "blob:z" 0 0))
               (sample_item "z.png" "blob:z")
  = Resolved "data:image/webp;base64,UklGRg=="%string.
Proof. split; reflexivity. Qed.

Local Open Scope string_scope.
Local Open Scope list_scope.

(** ** Promises and the batch run *)

Lemma Promise_all_pending {A} (ps : list (Promise A)) :
  In Pending ps -> Promise_all ps = Pending.
Proof.
  induction ps as [|p ps IH]; simpl; [tauto|].
  intros [->|Hin]; [reflexivity|].
  rewrite (IH Hin). now destruct p.
Qed.

(** [Promise.all] resolves exactly when every promise has resolved. *)
Lemma Promise_all_resolved {A} (ps : list (Promise A)) (l : list A) :
  Promise_all ps = Resolved l <-> ps = map Resolved l.
Proof.
  revert l. induction ps as [|p ps IH]; intros l; simpl.
  - split; intros H.
    + injection H as <-. reflexivity.
    + destruct l; [reflexivity|discriminate].
  - destruct p as [a|].
    + destruct (Promise_all ps) as [l'|] eqn:E.
      * split; intros H.
        -- injection H as <-. simpl. f_equal. now apply IH.
        -- destruct l as [|b l'']; [discriminate|].
           simpl in H. injection H as -> Hps.
           apply IH in Hps. congruence.
      * split; [discriminate|]. intros H.
        destruct l as [|b l'']; [discriminate|].
        simpl in H. injection H as _ Hps. apply IH in Hps. discriminate.
    + split; [discriminate|]. destruct l; discriminate.
Qed.

Lemma mapi_from_nth_error {A B} (f : nat -> A -> B) xs k i :
  nth_error (mapi_from k f xs) i = option_map (f (k + i)%nat) (nth_error xs i).
Proof.
  revert k i. induction xs as [|x xs IH]; intros k [|i]; simpl; auto.
  - now rewrite Nat.add_0_r.
  - rewrite IH. now rewrite Nat.add_succ_r.
Qed.

Section Run.

Variable has2d : bool.
Variable toDataURL : Canvas -> string -> number -> string.

Local Abbreviation process := (processImage has2d toDataURL).
Local Abbreviation optimize := (optimizeOne has2d toDataURL).

Lemma processImage_loaded load img :
  load (preview img) <> None ->
  exists url, process load img = Resolved url.
Proof.
  unfold processImage.
  destruct (load (preview img)); [eauto|congruence].
Qed.

Lemma processImage_failed load img :
  load (preview img) = None -> process load img = Pending.
Proof.
  unfold processImage. now intros ->.
Qed.

Lemma optimizeAll_from_resolves loads imgs k :
  (forall i img, nth_error imgs i = Some img ->
                 loads (k + i)%nat (preview img) <> None) ->
  exists l,
    Promise_all (mapi_from k (fun i img => optimize (loads i) img) imgs)
    = Resolved l /\
    List.length l = List.length imgs /\
    forall i img, nth_error imgs i = Some img ->
      exists url, process (loads (k + i)%nat) img = Resolved url /\
                  nth_error l i = Some (withResult img url).
Proof.
  revert k.
  induction imgs as [|x xs IH]; intros k Hok; simpl.
  - exists []. repeat split. intros [|i] img; discriminate.
  - destruct (processImage_loaded (loads k) x) as [url Hurl].
    { specialize (Hok 0%nat x eq_refl). now rewrite Nat.add_0_r in Hok. }
    destruct (IH (S k)) as (l & Hl & Hlen & Hnth).
    { intros i img Hi. specialize (Hok (S i) img Hi).
      now rewrite Nat.add_succ_r in Hok. }
    unfold optimizeOne at 1. rewrite Hurl, Hl.
    exists (withResult x url :: l). split; [reflexivity|].
    split; [simpl; congruence|].
    intros [|i] img Hi; simpl in *.
    + injection Hi as <-. exists url. rewrite Nat.add_0_r. auto.
    + rewrite Nat.add_succ_r. now apply Hnth.
Qed.

(** When every image loads, the joint promise resolves with every item
    replaced by its result. *)
Lemma optimizeAll_resolves loads imgs :
  (forall i img, nth_error imgs i = Some img ->
                 loads i (preview img) <> None) ->
  exists l,
    optimizeAll has2d toDataURL loads imgs = Resolved l /\
    List.length l = List.length imgs /\
    forall i img, nth_error imgs i = Some img ->
      exists url, process (loads i) img = Resolved url /\
                  nth_error l i = Some (withResult img url).
Proof.
  intros Hok. apply (optimizeAll_from_resolves loads imgs 0). exact Hok.
Qed.

(** One image that does not load keeps the joint promise pending. *)
Lemma optimizeAll_pending loads imgs K img :
  nth_error imgs K = Some img ->
  loads K (preview img) = None ->
  optimizeAll has2d toDataURL loads imgs = Pending.
Proof.
  intros HK Hload. apply Promise_all_pending.
  apply (nth_error_In _ K). unfold mapi.
  rewrite mapi_from_nth_error, HK. simpl.
  unfold optimizeOne.
  now rewrite (processImage_failed _ _ Hload).
Qed.

(** Whatever the joint promise resolves with is a list of results. *)
Lemma optimizeAll_results loads imgs l :
  optimizeAll has2d toDataURL loads imgs = Resolved l ->
  Forall (fun img => exists src image,
              img = withResult src (onload has2d toDataURL image)) l.
Proof.
  unfold optimizeAll, mapi. generalize 0%nat as k.
  revert l. induction imgs as [|x xs IH]; intros l k; simpl.
  - intros H; injection H as <-. constructor.
  - unfold optimizeOne at 1, processImage.
    destruct (loads k (preview x)) as [image|]; [|discriminate].
    destruct (Promise_all _) as [l'|] eqn:E; [|discriminate].
    intros H; injection H as <-. constructor.
    + exists x, image. reflexivity.
    + now apply (IH l' (S k)).
Qed.

Lemma optimizeAll_all_done loads imgs l :
  optimizeAll has2d toDataURL loads imgs = Resolved l ->
  Forall (fun img => status img = done) l.
Proof.
  intros H. apply optimizeAll_results in H.
  eapply Forall_impl; [|exact H].
  intros img (src & image & ->). reflexivity.
Qed.

End Run.

(** ** The orchestrator: handleStartOptimization *)

Ltac split_prefix H :=
  repeat match type of H with
         | _ :: _ = ?pre ++ _ =>
             destruct pre; simpl in H;
             [ clear H | injection H as <- H ]
         | [] = ?pre ++ _ =>
             destruct pre; [ clear H | discriminate H ]
         end.

Section RunOutcome.

Variable has2d : bool.
Variable toDataURL : Canvas -> string -> number -> string.
Variable loads : nat -> string -> option HTMLImage.
Variable st : AppState.

Let st' := run_events st (handleStartOptimization has2d toDataURL loads st).

Lemma run_all_loaded :
  (forall i img, nth_error (images st) i = Some img ->
                 loads i (preview img) <> None) ->
  completes has2d toDataURL loads st = true /\
  isProcessing st' = false /\
  List.length (images st') = List.length (images st) /\
  forall i img, nth_error (images st) i = Some img ->
    exists url,
      processImage has2d toDataURL (loads i) img = Resolved url /\
      nth_error (images st') i = Some (withResult img url).
Proof.
  intros Hok. subst st'. unfold completes, handleStartOptimization.
  destruct (optimizeAll_resolves has2d toDataURL loads (images st) Hok)
    as (l & Hl & Hlen & Hnth).
  rewrite Hl. simpl. auto.
Qed.

Lemma run_one_load_failed K img :
  nth_error (images st) K = Some img ->
  loads K (preview img) = None ->
  completes has2d toDataURL loads st = false /\
  images st' = images st /\
  isProcessing st' = true.
Proof.
  intros HK Hload. subst st'. unfold completes, handleStartOptimization.
  rewrite (optimizeAll_pending has2d toDataURL loads (images st) K img HK Hload).
  simpl. auto.
Qed.

End RunOutcome.

(** C1 (amended).  The run has no failure path.  If every item's image
    loads, every stage goes through: the run completes, clears
    [isProcessing], and item [i] of the batch is item [i] of before with its
    result and status [done].  If some item's image does not load, its
    promise never settles and the run never completes: the batch is left as
    it was (no status or result changes, nothing is marked as failed, no
    error is recorded) and [isProcessing] stays set. *)
Theorem C1_run_commits_all_or_nothing
        has2d toDataURL (loads : nat -> string -> option HTMLImage) st :
  let st' := run_events st (handleStartOptimization has2d toDataURL loads st) in
  ((forall i img, nth_error (images st) i = Some img ->
                  loads i (preview img) <> None) ->
   completes has2d toDataURL loads st = true /\
   isProcessing st' = false /\
   List.length (images st') = List.length (images st) /\
   forall i img, nth_error (images st) i = Some img ->
     exists url,
       processImage has2d toDataURL (loads i) img = Resolved url /\
       nth_error (images st') i = Some (withResult img url))
  /\
  (forall K img, nth_error (images st) K = Some img ->
                 loads K (preview img) = None ->
   completes has2d toDataURL loads st = false /\
   images st' = images st /\
   isProcessing st' = true).
Proof.
  cbv zeta. split.
  - apply run_all_loaded.
  - apply run_one_load_failed.
Qed.

(** The theorem at a batch of two images that load and at the batch with a
    broken second item. *)
Lemma C1_run_commits_all_or_nothing_witness :
  (List.length
     (images (run_events sample_two_good
        (handleStartOptimization true sample_toDataURL sample_load
                                 sample_two_good))) = 2%nat)
  /\
  images (run_events sample_good_bad
            (handleStartOptimization true sample_toDataURL sample_load
                                     sample_good_bad))
  = images sample_good_bad.
Proof.
  split.
  - apply (C1_run_commits_all_or_nothing true sample_toDataURL sample_load
                                         sample_two_good).
    intros [|[|[|i]]] img H; simpl in H; try discriminate H;
      injection H as <-; vm_compute; discriminate.
  - apply (proj2 (C1_run_commits_all_or_nothing true sample_toDataURL
                    sample_load sample_good_bad) 1%nat
                 (sample_item "b.jpg" "blob:broken")); reflexivity.
Defined.

(** C1 as stated fails: with one broken item in the batch the run does not
    complete, the broken item is not marked (a [Status] has no value for a
    failure; it stays [idle]) and the sound item is not processed to
    [done]. *)
Lemma C1_broken_item_blocks_the_run :
  let st' := run_events sample_good_bad
               (handleStartOptimization true sample_toDataURL sample_load
                                        sample_good_bad) in
  completes true sample_toDataURL sample_load sample_good_bad = false /\
  map status (images st') = [idle; idle] /\
  map resultUrl (images st') = [None; None] /\
  isProcessing st' = true.
Proof. vm_compute. auto. Qed.

(** *** Injecting a load failure *)

Lemma fail_at_other K loads i :
  i <> K -> fail_at K loads i = loads i.
Proof.
  intros Hi. unfold fail_at.
  destruct (Nat.eqb_spec i K); [contradiction|reflexivity].
Qed.

Lemma fail_at_same K loads src : fail_at K loads K src = None.
Proof. unfold fail_at. now rewrite Nat.eqb_refl. Qed.

Lemma mapi_from_ext {A B} (f g : nat -> A -> B) xs k :
  (forall i x, nth_error xs i = Some x -> f (k + i)%nat x = g (k + i)%nat x) ->
  mapi_from k f xs = mapi_from k g xs.
Proof.
  revert k. induction xs as [|x xs IH]; intros k H; simpl; [reflexivity|].
  f_equal.
  - specialize (H 0%nat x eq_refl). now rewrite Nat.add_0_r in H.
  - apply IH. intros i y Hy. specialize (H (S i) y Hy).
    now rewrite Nat.add_succ_r in H.
Qed.

(** C2 (amended).  A load failure injected into item [K] leaves the
    pipeline result of every other item as it was, but not their terminal
    status or output: results are committed by one [setImages] after all
    promises have resolved, so with [K] in the batch the run never completes
    and every item, [K] or not, keeps the status and [resultUrl] it had
    before the run.  (An index outside the batch injects nothing.) *)
Theorem C2_injected_failure_blocks_every_item
        has2d toDataURL (loads : nat -> string -> option HTMLImage) st K :
  let run l := run_events st (handleStartOptimization has2d toDataURL l st) in
  (forall i img, i <> K ->
     optimizeOne has2d toDataURL (fail_at K loads i) img
     = optimizeOne has2d toDataURL (loads i) img)
  /\
  ((K < List.length (images st))%nat ->
   completes has2d toDataURL (fail_at K loads) st = false /\
   images (run (fail_at K loads)) = images st /\
   isProcessing (run (fail_at K loads)) = true)
  /\
  ((List.length (images st) <= K)%nat ->
   run (fail_at K loads) = run loads).
Proof.
  cbv zeta. split; [|split].
  - intros i img Hi. now rewrite fail_at_other.
  - intros HK.
    destruct (nth_error (images st) K) as [img|] eqn:E.
    + apply (run_one_load_failed has2d toDataURL (fail_at K loads) st K img E).
      apply fail_at_same.
    + apply nth_error_None in E. lia.
  - intros HK. unfold handleStartOptimization, optimizeAll, mapi.
    rewrite (mapi_from_ext
               (fun i img => optimizeOne has2d toDataURL (fail_at K loads i) img)
               (fun i img => optimizeOne has2d toDataURL (loads i) img));
      [reflexivity|].
    intros i x Hx. simpl. rewrite fail_at_other; [reflexivity|].
    assert (i < List.length (images st))%nat
      by (apply nth_error_Some; congruence).
    lia.
Qed.

Lemma C2_injected_failure_blocks_every_item_witness :
  images (run_events sample_two_good
            (handleStartOptimization true sample_toDataURL
               (fail_at 0 sample_load) sample_two_good))
  = images sample_two_good.
Proof.
  apply (C2_injected_failure_blocks_every_item
           true sample_toDataURL sample_load sample_two_good 0).
  simpl. lia.
Defined.

(** C2 as stated fails: in a batch of two images that load, the second
    item ends [done] with its output; with a load failure injected into the
    first item, the second ends [idle] with no output. *)
Lemma C2_failure_of_first_changes_second :
  let run l :=
    images (run_events sample_two_good
              (handleStartOptimization true sample_toDataURL l
                                       sample_two_good)) in
  option_map status (nth_error (run sample_load) 1) = Some done /\
  option_map status (nth_error (run (fail_at 0 sample_load)) 1) = Some idle /\
  option_map resultUrl (nth_error (run sample_load) 1)
  <> option_map resultUrl (nth_error (run (fail_at 0 sample_load)) 1).
Proof. vm_compute. repeat split; discriminate. Qed.

(** ** The item invariant *)

Lemma mapi_from_Forall {A B} (P : B -> Prop) (f : nat -> A -> B) xs k :
  (forall i x, P (f i x)) -> Forall P (mapi_from k f xs).
Proof.
  intros H. revert k. induction xs; intros k; simpl; constructor; auto.
Qed.

Section Preservation.

Variable P : ImageData -> Prop.

(** An item as intake creates it, and an item as the run leaves it. *)
Hypothesis P_new :
  forall i f u, P {| id := i; file := f; preview := u;
                     status := idle; resultUrl := None |}.

Lemma handleFileChange_preserves rid url files :
  preserves P (handleFileChange rid url files).
Proof.
  intros st pre post Hinv H. unfold handleFileChange in H.
  destruct files as [fs|]; split_prefix H; simpl; auto.
  apply Forall_app. split; [assumption|].
  apply mapi_from_Forall. intros i f. apply P_new.
Qed.

Lemma handleStartOptimization_preserves has2d toDataURL loads :
  (forall src image, P (withResult src (onload has2d toDataURL image))) ->
  preserves P (handleStartOptimization has2d toDataURL loads).
Proof.
  intros P_done st pre post Hinv H. unfold handleStartOptimization in H.
  destruct (optimizeAll has2d toDataURL loads (images st)) as [l|] eqn:E;
    split_prefix H; simpl; auto;
    apply optimizeAll_results in E;
    (eapply Forall_impl; [|exact E]);
    intros img (src & image & ->); apply P_done.
Qed.

Lemma downloadAllAsZip_preserves generates :
  preserves P (downloadAllAsZip generates).
Proof.
  intros st pre post Hinv H. unfold downloadAllAsZip in H.
  destruct (generates (zipObject (images st)));
    split_prefix H; simpl; auto.
Qed.

End Preservation.

Lemma item_ok_new i f u :
  item_ok {| id := i; file := f; preview := u;
             status := idle; resultUrl := None |}.
Proof. unfold item_ok; simpl. split; [congruence|discriminate]. Qed.

Lemma item_ok_withResult img url : item_ok (withResult img url).
Proof. unfold item_ok; simpl. split; [reflexivity|discriminate]. Qed.

(** C8.  Intake ([handleFileChange]), the batch run
    ([handleStartOptimization]) and the archive step ([downloadAllAsZip])
    each keep the item invariant, [resultUrl] set if and only if the status
    is [done], in every state they pass through. *)
Theorem C8_operations_preserve_item_invariant :
  (forall rid url files,
      preserves item_ok (handleFileChange rid url files)) /\
  (forall has2d toDataURL loads,
      preserves item_ok (handleStartOptimization has2d toDataURL loads)) /\
  (forall generates,
      preserves item_ok (downloadAllAsZip generates)).
Proof.
  split; [|split].
  - intros. apply handleFileChange_preserves. exact item_ok_new.
  - intros. apply handleStartOptimization_preserves.
    intros. apply item_ok_withResult.
  - intros. apply downloadAllAsZip_preserves.
Qed.

Lemma C8_operations_preserve_item_invariant_witness :
  Forall item_ok
    (images (run_events sample_two_good
       (handleStartOptimization true sample_toDataURL sample_load
                                sample_two_good))).
Proof.
  apply (proj1 (proj2 C8_operations_preserve_item_invariant)
           true sample_toDataURL sample_load sample_two_good
           (handleStartOptimization true sample_toDataURL sample_load
                                    sample_two_good) []).
  - repeat (apply Forall_cons || apply Forall_nil);
      unfold item_ok; simpl; split; intros; (congruence || discriminate).
  - symmetry. apply app_nil_r.
Defined.

(** The archive tests [resultUrl] for being set and not empty.  As
    [toDataURL] never returns the empty string (the least it returns is
    ["data:,"]), the handlers keep the invariant in that form too. *)
Lemma operations_preserve_item_ready :
  (forall rid url files,
      preserves item_ready (handleFileChange rid url files)) /\
  (forall has2d toDataURL loads,
      (forall c t q, toDataURL c t q <> ""%string) ->
      preserves item_ready (handleStartOptimization has2d toDataURL loads)) /\
  (forall generates,
      preserves item_ready (downloadAllAsZip generates)).
Proof.
  assert (Hnew : forall i f u,
             item_ready {| id := i; file := f; preview := u;
                           status := idle; resultUrl := None |})
    by (intros; unfold item_ready; simpl; split; discriminate).
  split; [|split].
  - intros. now apply handleFileChange_preserves.
  - intros has2d toDataURL loads Hne.
    apply handleStartOptimization_preserves.
    intros src image. unfold item_ready, onload. simpl.
    destruct (resize _ _) as [w h].
    destruct (toDataURL _ _ _) eqn:E; [now apply Hne in E|].
    split; reflexivity.
  - intros. now apply downloadAllAsZip_preserves.
Qed.

(** ** Completion *)

(** C9.  In every run of [handleStartOptimization], an [alert] is raised
    only in a state in which every item is [done] (and [isProcessing] is
    cleared), and in no state the run passes through after its first effect
    is the download button shown unless every item is [done]. *)
Theorem C9_completion_only_after_all_done
        has2d toDataURL (loads : nat -> string -> option HTMLImage)
        st pre ev post :
  handleStartOptimization has2d toDataURL loads st = pre ++ ev :: post ->
  (is_alert ev = true ->
   Forall (fun img => status img = done) (images (run_events st pre)) /\
   isProcessing (run_events st pre) = false)
  /\
  (download_shown (run_events st (pre ++ [ev])) = true ->
   Forall (fun img => status img = done)
          (images (run_events st (pre ++ [ev])))).
Proof.
  intros H. unfold handleStartOptimization in H.
  destruct (optimizeAll has2d toDataURL loads (images st)) as [l|] eqn:E.
  - assert (Hd := optimizeAll_all_done _ _ _ _ _ E).
    destruct pre as [|e1 pre]; simpl in H; injection H as <- H.
    { split; [discriminate|]. unfold download_shown; simpl.
      rewrite andb_false_r. discriminate. }
    destruct pre as [|e2 pre]; simpl in H; injection H as <- H.
    { split; [discriminate|]. unfold download_shown; simpl.
      rewrite andb_false_r. discriminate. }
    destruct pre as [|e3 pre]; simpl in H; injection H as <- H.
    { split; [discriminate|]. intros _. exact Hd. }
    destruct pre as [|e4 pre]; simpl in H; injection H as <- H.
    { split; intros _; simpl; auto. }
    destruct pre; discriminate H.
  - destruct pre as [|e1 pre]; simpl in H; injection H as <- H.
    { split; [discriminate|]. unfold download_shown; simpl.
      rewrite andb_false_r. discriminate. }
    destruct pre; discriminate H.
Qed.

Lemma C9_completion_only_after_all_done_witness :
  Forall (fun img => status img = done)
    (images (run_events sample_two_good
       [SetIsProcessing true;
        SetImages [withResult (sample_item "a.png" "blob:a")
                     "data:image/webp;base64,UklGRg==";
                   withResult (sample_item "b.jpg" "blob:b")
                     "data:image/webp;base64,UklGRg=="];
        SetIsProcessing false])).
Proof.
  apply (C9_completion_only_after_all_done
           true sample_toDataURL sample_load sample_two_good
           [SetIsProcessing true;
            SetImages [withResult (sample_item "a.png" "blob:a")
                         "data:image/webp;base64,UklGRg==";
                       withResult (sample_item "b.jpg" "blob:b")
                         "data:image/webp;base64,UklGRg=="];
            SetIsProcessing false]
           (Alert completion_message) []);
    reflexivity.
Defined.

(** ** Archive entry names *)

Lemma ext_chars_app_dot (b e : string) :
  ext_chars (b ++ "." ++ e)%string = false.
Proof.
  induction b as [|c b IH]; simpl in *.
  - reflexivity.
  - rewrite IH. apply andb_false_r.
Qed.

Lemma ext_here_inv (s : string) :
  ext_here s = true ->
  exists ext, s = ("." ++ ext)%string /\ ext <> ""%string /\ ext_chars ext = true.
Proof.
  destruct s as [|c [|d s']]; simpl; try discriminate.
  intros H. apply andb_true_iff in H as [Hc He].
  apply Ascii.eqb_eq in Hc. subst c.
  exists (String d s'). repeat split; [discriminate|exact He].
Qed.

Lemma ext_here_dot (ext : string) :
  ext <> ""%string -> ext_chars ext = true ->
  ext_here (String "." ext) = true.
Proof.
  destruct ext as [|d e]; [congruence|]. intros _ H. simpl in *. exact H.
Qed.

Lemma ext_here_before_dot c (b e : string) :
  ext_here (String c (b ++ "." ++ e))%string = false.
Proof.
  destruct b as [|d b]; simpl.
  - apply andb_false_r.
  - assert (H := ext_chars_app_dot b e). simpl in H. rewrite H.
    rewrite andb_false_r. apply andb_false_r.
Qed.

Lemma strip_ext_cons c (s : string) :
  strip_ext (String c s)
  = if ext_here (String c s) then ""%string else String c (strip_ext s).
Proof. reflexivity. Qed.

(** The pattern removes a final extension... *)
Lemma strip_ext_extension (base ext : string) :
  ext <> ""%string -> ext_chars ext = true ->
  strip_ext (base ++ "." ++ ext)%string = base.
Proof.
  intros Hne Hext. induction base as [|c b IH].
  - change ("" ++ "." ++ ext)%string with (String "." ext).
    rewrite strip_ext_cons.
    now rewrite (ext_here_dot ext Hne Hext).
  - change (String c b ++ "." ++ ext)%string
      with (String c (b ++ "." ++ ext))%string.
    rewrite strip_ext_cons, ext_here_before_dot. now rewrite IH.
Qed.

(** ... and nothing from a name without one. *)
Lemma strip_ext_no_extension (s : string) :
  ~ has_extension s -> strip_ext s = s.
Proof.
  induction s as [|c s IH]; intros Hno; [reflexivity|].
  rewrite strip_ext_cons.
  destruct (ext_here (String c s)) eqn:E.
  - exfalso. apply Hno. apply ext_here_inv in E as (ext & Hs & Hne & Hext).
    exists ""%string, ext. auto.
  - f_equal. apply IH. intros (base & ext & Hs & Hne & Hext).
    apply Hno. exists (String c base), ext. subst s. auto.
Qed.

(** *** The pattern of line 96 strips the final extension *)

Lemma last_dot_no_ext_chars (e : string) :
  ext_chars e = true -> last_dot e = None.
Proof.
  induction e as [|c e IH]; simpl; [reflexivity|].
  intros H. apply andb_true_iff in H as [Hc He].
  rewrite (IH He). unfold ext_char in Hc.
  apply andb_true_iff in Hc as [_ Hc].
  now destruct (Ascii.eqb c ".").
Qed.

Lemma last_dot_app (b e : string) :
  last_dot e = None -> last_dot (b ++ "." ++ e)%string = Some (b, e).
Proof.
  intros He. induction b as [|c b IH]; simpl in *.
  - now rewrite He.
  - now rewrite IH.
Qed.

Lemma last_dot_Some (s b e : string) :
  last_dot s = Some (b, e) ->
  s = (b ++ "." ++ e)%string /\ last_dot e = None.
Proof.
  revert b. induction s as [|c s IH]; intros b; simpl; [discriminate|].
  destruct (last_dot s) as [[b' e']|] eqn:E.
  - intros H; injection H as <- <-.
    destruct (IH b' eq_refl) as [-> He]. auto.
  - destruct (Ascii.eqb_spec c "."); [|discriminate].
    intros H; injection H as <- <-. subst c. auto.
Qed.

Lemma ext_chars_no_slash (e : string) :
  last_dot e = None -> ext_chars e = no_slash e.
Proof.
  unfold no_slash. induction e as [|c e IH]; simpl; [reflexivity|].
  destruct (last_dot e) as [[b' e']|]; [discriminate|].
  destruct (Ascii.eqb_spec c ".") as [->|Hc]; [discriminate|].
  intros _. rewrite (IH eq_refl). unfold ext_char.
  apply Ascii.eqb_neq in Hc. rewrite Hc.
  destruct (Ascii.eqb c "/"); simpl; reflexivity.
Qed.

Lemma has_extension_last_dot (s : string) :
  has_extension s ->
  exists b e, last_dot s = Some (b, e) /\ e <> ""%string /\ ext_chars e = true.
Proof.
  intros (b & e & -> & Hne & He). exists b, e.
  split; [|auto]. apply last_dot_app. now apply last_dot_no_ext_chars.
Qed.

(** The pattern of line 96 does what the specification calls stripping the
    extension. *)
Lemma strip_ext_stripExtension (s : string) : strip_ext s = stripExtension s.
Proof.
  unfold stripExtension.
  destruct (last_dot s) as [[b e]|] eqn:E.
  - destruct (negb (String.eqb e "") && no_slash e) eqn:C.
    + apply andb_true_iff in C as [Hne Hns].
      apply last_dot_Some in E as [-> He].
      apply strip_ext_extension.
      * intros ->. discriminate.
      * now rewrite ext_chars_no_slash.
    + apply strip_ext_no_extension. intros Hx.
      apply has_extension_last_dot in Hx as (b' & e' & Hl & Hne & He).
      rewrite E in Hl. injection Hl as <- <-.
      rewrite <- (ext_chars_no_slash e) in C
        by now apply last_dot_no_ext_chars.
      rewrite He, andb_true_r in C.
      apply negb_false_iff, String.eqb_eq in C. contradiction.
  - apply strip_ext_no_extension. intros Hx.
    apply has_extension_last_dot in Hx as (b' & e' & Hl & _). congruence.
Qed.

(** ** The archive *)

Lemma zipOne_ready img :
  item_ready img ->
  zipOne img = if is_done img then [expected_entry img] else [].
Proof.
  unfold item_ready, zipOne, is_done, expected_entry, fileName.
  intros [H1 H2]. rewrite <- strip_ext_stripExtension.
  destruct (resultUrl img) as [[|c u]|] eqn:R; simpl in *.
  - destruct (status img); simpl; auto.
    specialize (H2 eq_refl). discriminate.
  - rewrite (H1 eq_refl). reflexivity.
  - destruct (status img); simpl; auto.
    specialize (H2 eq_refl). discriminate.
Qed.

(** *** What the zip keeps *)

Lemma find_app {A} (p : A -> bool) (l1 l2 : list A) :
  find p (l1 ++ l2)
  = match find p l1 with Some x => Some x | None => find p l2 end.
Proof.
  induction l1 as [|x l1 IH]; simpl; [reflexivity|].
  now destruct (p x).
Qed.

(** The file held under a name after [zip.file]: the new one under its own
    name, the one held before under any other. *)
Lemma zip_file_find (zip : list ZipFile) (f : ZipFile) (n : string) :
  find (has_name n) (zip_file zip f)
  = if has_name n f then Some f else find (has_name n) zip.
Proof.
  induction zip as [|g zip IH]; simpl.
  - now destruct (has_name n f).
  - unfold has_name in *.
    destruct (String.eqb_spec (zf_name g) (zf_name f)) as [E|E]; simpl.
    + rewrite E. now destruct (String.eqb (zf_name f) n).
    + rewrite IH.
      destruct (String.eqb_spec (zf_name g) n) as [G|G]; [|reflexivity].
      destruct (String.eqb_spec (zf_name f) n) as [F|F]; [|reflexivity].
      congruence.
Qed.

Lemma fold_zip_file_find (fs zip : list ZipFile) (n : string) :
  find (has_name n) (fold_left zip_file fs zip)
  = match find (has_name n) (rev fs) with
    | Some f => Some f
    | None => find (has_name n) zip
    end.
Proof.
  revert zip. induction fs as [|f fs IH]; intros zip; simpl; [reflexivity|].
  rewrite IH, find_app, zip_file_find. simpl.
  destruct (find (has_name n) (rev fs)); [reflexivity|].
  now destruct (has_name n f).
Qed.

Lemma zip_file_names (zip : list ZipFile) (f : ZipFile) (n : string) :
  In n (map zf_name (zip_file zip f))
  <-> n = zf_name f \/ In n (map zf_name zip).
Proof.
  induction zip as [|g zip IH]; simpl.
  - intuition auto.
  - destruct (String.eqb_spec (zf_name g) (zf_name f)) as [E|E]; simpl.
    + rewrite E. intuition auto.
    + rewrite IH. intuition auto.
Qed.

Lemma zip_file_NoDup (zip : list ZipFile) (f : ZipFile) :
  NoDup (map zf_name zip) -> NoDup (map zf_name (zip_file zip f)).
Proof.
  induction zip as [|g zip IH]; simpl; intros H.
  - constructor; [intros []|constructor].
  - inversion H as [|? ? Hg Hzip]; subst.
    destruct (String.eqb_spec (zf_name g) (zf_name f)) as [E|E]; simpl.
    + rewrite <- E. now constructor.
    + constructor; [|now apply IH].
      rewrite zip_file_names. intros [F|F]; [congruence|contradiction].
Qed.

Lemma fold_zip_file_NoDup (fs zip : list ZipFile) :
  NoDup (map zf_name zip) -> NoDup (map zf_name (fold_left zip_file fs zip)).
Proof.
  revert zip. induction fs as [|f fs IH]; intros zip H; simpl; [exact H|].
  apply IH. now apply zip_file_NoDup.
Qed.

Lemma zip_file_length (zip : list ZipFile) (f : ZipFile) :
  (List.length zip <= List.length (zip_file zip f) <= S (List.length zip))%nat.
Proof.
  induction zip as [|g zip IH]; simpl; [lia|].
  destruct (String.eqb (zf_name g) (zf_name f)); simpl; lia.
Qed.

Lemma fold_zip_file_length (fs zip : list ZipFile) :
  (List.length zip <= List.length (fold_left zip_file fs zip)
   <= List.length zip + List.length fs)%nat.
Proof.
  revert zip. induction fs as [|f fs IH]; intros zip; simpl; [lia|].
  specialize (IH (zip_file zip f)).
  assert (H := zip_file_length zip f). lia.
Qed.

(** A file of a new name goes to the end. *)
Lemma zip_file_fresh (zip : list ZipFile) (f : ZipFile) :
  ~ In (zf_name f) (map zf_name zip) -> zip_file zip f = zip ++ [f].
Proof.
  induction zip as [|g zip IH]; simpl; intros H; [reflexivity|].
  destruct (String.eqb_spec (zf_name g) (zf_name f)) as [E|E].
  - exfalso. apply H. now left.
  - f_equal. apply IH. intros F. apply H. now right.
Qed.

Lemma fold_zip_file_distinct (fs zip : list ZipFile) :
  NoDup (map zf_name (zip ++ fs)) -> fold_left zip_file fs zip = zip ++ fs.
Proof.
  revert zip. induction fs as [|f fs IH]; intros zip H; simpl.
  - now rewrite app_nil_r.
  - rewrite zip_file_fresh.
    + rewrite IH; rewrite <- app_assoc; [reflexivity|exact H].
    + rewrite map_app in H. simpl in H.
      apply NoDup_remove_2 in H. intros F. apply H.
      apply in_or_app. now left.
Qed.

(** When the calls all differ in the name, the zip holds one file per
    call, in call order. *)
Lemma zipObject_distinct (imgs : list ImageData) :
  NoDup (map zf_name (zipFiles imgs)) -> zipObject imgs = zipFiles imgs.
Proof. intros H. unfold zipObject. now rewrite fold_zip_file_distinct. Qed.

(** The calls for a batch that satisfies the item invariant: one for each
    item that is [done], in the order of the batch. *)
Lemma zipFiles_done_items (imgs : list ImageData) :
  Forall item_ready imgs ->
  zipFiles imgs = map expected_entry (filter is_done imgs).
Proof.
  unfold zipFiles. induction 1 as [|img imgs Himg _ IH]; simpl; [reflexivity|].
  rewrite (zipOne_ready img Himg), IH.
  now destruct (is_done img).
Qed.

(** C3 (amended).  For a batch that satisfies the item invariant and whose
    [done] items differ in the derived name, the zip that
    [downloadAllAsZip] builds holds, in the order of the batch, exactly one
    entry for each item that is [done], named by the item's file name with
    its final extension stripped and [.webp] appended, and nothing for an
    item that is not [done]; this is the archive that is saved, when its
    generation succeeds, and nothing is saved when it does not. *)
Theorem C3_archive_of_distinct_names generates st :
  Forall item_ready (images st) ->
  NoDup (map (fun img => zf_name (expected_entry img))
             (filter is_done (images st))) ->
  let entries := map expected_entry (filter is_done (images st)) in
  zipObject (images st) = entries /\
  downloadAllAsZip generates st
  = if generates entries then [SaveAs entries "optimized_images.zip"] else [].
Proof.
  intros Hinv Hnames entries.
  assert (Hzip : zipObject (images st) = entries).
  { rewrite zipObject_distinct; rewrite zipFiles_done_items by assumption.
    - reflexivity.
    - now rewrite map_map. }
  split; [exact Hzip|].
  unfold downloadAllAsZip. now rewrite Hzip.
Qed.

Ltac item_ready_tac :=
  repeat (apply Forall_cons || apply Forall_nil); unfold item_ready; simpl;
  split; intros; (reflexivity || discriminate).

Ltac distinct_names_tac :=
  repeat (apply NoDup_cons || apply NoDup_nil); simpl;
  intuition discriminate.

Lemma C3_archive_of_distinct_names_witness :
  downloadAllAsZip (fun _ => true) sample_mixed
  = [SaveAs [mkZipFile "photo.webp" (Some "UklGRg==") true;
             mkZipFile "archive.tar.webp" (Some "UklGRg==") true]
            "optimized_images.zip"].
Proof.
  apply (C3_archive_of_distinct_names (fun _ => true) sample_mixed).
  - item_ready_tac.
  - distinct_names_tac.
Defined.

(** C3 as stated fails: of two [done] items named [a.png] and [a.jpg] the
    saved archive holds one entry, [a.webp], with the data of the second;
    the first item has no entry of its own.  And when the generation of the
    archive fails, nothing is saved at all. *)
Lemma C3_items_of_one_stem_share_an_entry :
  Forall item_ready (images sample_same_stem) /\
  map is_done (images sample_same_stem) = [true; true] /\
  downloadAllAsZip (fun _ => true) sample_same_stem
  = [SaveAs [mkZipFile "a.webp" (Some "BBBB") true] "optimized_images.zip"] /\
  downloadAllAsZip (fun _ => false) sample_mixed = [].
Proof.
  split; [item_ready_tac|]. repeat split.
Qed.

(** C10.  For a [done] item of a batch that satisfies the item invariant:
    when the file name has no extension for the pattern to strip, the entry
    is named by the whole file name followed by [.webp]; when the file name
    is a dot followed by a suffix without dot or slash (as [.config]), the
    whole name is stripped and the entry is named [.webp]. *)
Theorem C10_entry_name_edge_cases img :
  item_ready img -> status img = done ->
  (~ has_extension (name (file img)) ->
   map zf_name (zipOne img) = [(name (file img) ++ ".webp")%string])
  /\
  (forall suffix,
      name (file img) = ("." ++ suffix)%string ->
      suffix <> ""%string -> ext_chars suffix = true ->
      map zf_name (zipOne img) = [".webp"%string]).
Proof.
  intros Hready Hdone.
  assert (Hz : map zf_name (zipOne img) = [fileName img]).
  { unfold zipOne. destruct Hready as [_ Ht]. specialize (Ht Hdone).
    destruct (resultUrl img) as [url|]; [|discriminate].
    rewrite Ht. reflexivity. }
  rewrite Hz. unfold fileName. split.
  - intros Hno. now rewrite strip_ext_no_extension.
  - intros suffix Hn Hne Hext. rewrite Hn.
    change ("." ++ suffix)%string with ("" ++ "." ++ suffix)%string.
    now rewrite (strip_ext_extension "" suffix Hne Hext).
Qed.

Lemma C10_entry_name_edge_cases_witness :
  map zf_name (zipOne (sample_done "README")) = ["README.webp"%string] /\
  map zf_name (zipOne (sample_done ".config")) = [".webp"%string].
Proof.
  split.
  - apply (C10_entry_name_edge_cases (sample_done "README"));
      [item_ready_tac | reflexivity |].
    intros Hx. apply has_extension_last_dot in Hx as (b & e & Hl & _).
    discriminate Hl.
  - apply (proj2 (C10_entry_name_edge_cases (sample_done ".config")
                    ltac:(item_ready_tac) eq_refl) "config"%string);
      [reflexivity | discriminate | reflexivity].
Defined.

Local Open Scope Z_scope.

(** * More of the program *)

(** ** More on the resize step (lines 27-41) *)

Lemma normal_positive lo hi x : normal lo hi x -> (0 < toQ x)%Q.
Proof.
  intros (m & e & -> & Hm & _). rewrite toQ_finite.
  apply Qmult_lt_0_compat; [|apply pow2_pos].
  change 0%Q with (inject_Z 0). rewrite <- Zlt_Qlt. lia.
Qed.

Lemma normal_isFinite lo hi x : normal lo hi x -> isFinite x = true.
Proof. intros (m & e & -> & _). reflexivity. Qed.

Lemma ideal_edge_le (a b : Z) (c : Q) :
  0 < b -> (inject_Z a * 1200 <= c * inject_Z b)%Q -> (ideal_edge a b <= c)%Q.
Proof.
  intros Hb H. unfold ideal_edge, MAX_SIZE. rewrite inject_Z_mult.
  apply Qle_shift_div_r; [|exact H].
  change 0%Q with (inject_Z 0). rewrite <- Zlt_Qlt. exact Hb.
Qed.

Lemma Z2Q_lt (x y : Z) : x < y -> (inject_Z x < inject_Z y)%Q.
Proof. intros H. now rewrite <- Zlt_Qlt. Qed.

(** The scaled edge of a positive length: a positive double, not above the
    length it was scaled from, and below [MAX_SIZE] when the length is
    shorter than the edge it is scaled by. *)
Lemma scaled_edge_range (a b : Z) :
  0 < a <= b -> MAX_SIZE < b < 2 ^ 32 ->
  let y := mul (ofZ a) (div (ofZ MAX_SIZE) (ofZ b)) in
  isFinite y = true /\ (0 < toQ y)%Q /\ (toQ y < inject_Z a)%Q /\
  (a < b -> (toQ y < inject_Z MAX_SIZE)%Q).
Proof.
  intros Ha Hb y.
  assert (Hb53 : MAX_SIZE < b < 2 ^ 53) by (simpl in *; lia).
  destruct (scaled_edge_bound a b Ha Hb53) as [Hn Hq]. fold y in Hn, Hq.
  apply Qabs_Qlt_condition in Hq.
  split; [eapply normal_isFinite; exact Hn|].
  split; [eapply normal_positive; exact Hn|].
  unfold MAX_SIZE in *.
  assert (A1 : (1 <= inject_Z a)%Q) by (apply (Z2Q_le 1 a); lia).
  assert (B1 : (1201 <= inject_Z b)%Q) by (apply (Z2Q_le 1201 b); lia).
  assert (B2 : (inject_Z b <= 4294967296)%Q)
    by (apply (Z2Q_le b 4294967296); simpl in *; lia).
  assert (AB : (inject_Z a <= inject_Z b)%Q) by (apply Z2Q_le; lia).
  split.
  - assert (Hi : (ideal_edge a b <= inject_Z a - (1 # 1099511627776))%Q).
    { apply ideal_edge_le; [lia|].
      revert A1 B1 B2. generalize (inject_Z a) (inject_Z b). intros A B; nra. }
    revert Hq Hi. generalize (toQ y) (ideal_edge a b) (inject_Z a).
    intros; lra.
  - intros Hlt.
    assert (AB' : (inject_Z a + 1 <= inject_Z b)%Q).
    { change 1%Q with (inject_Z 1). rewrite <- inject_Z_plus.
      apply Z2Q_le. lia. }
    assert (Hi : (ideal_edge a b <= 1200 - (1 # 1099511627776))%Q).
    { apply ideal_edge_le; [lia|].
      revert A1 B1 B2 AB'. generalize (inject_Z a) (inject_Z b).
      intros A B; nra. }
    change (inject_Z 1200) with 1200%Q.
    revert Hq Hi. generalize (toQ y) (ideal_edge a b). intros; lra.
Qed.

Lemma ofZ_isFinite (a : Z) : 0 <= a < 2 ^ 53 -> isFinite (ofZ a) = true.
Proof.
  intros Ha. destruct (Z.eq_dec a 0) as [->|Hn]; [reflexivity|].
  eapply normal_isFinite. apply ofZ_normal. lia.
Qed.

Lemma toQ_ofZ_pos (a : Z) : 0 < a < 2 ^ 53 -> (0 < toQ (ofZ a))%Q.
Proof. intros Ha. eapply normal_positive. now apply ofZ_normal. Qed.

Ltac resize_cases W H :=
  rewrite resize_ofZ by assumption;
  destruct (Z.ltb_spec H W);
  [destruct (Z.ltb_spec MAX_SIZE W)|destruct (Z.ltb_spec MAX_SIZE H)];
  cbn [fst snd].

(** Tall images, the branch the claims leave out: for [W < H] and
    [H > MAX_SIZE] the height is exactly [MAX_SIZE] and the width is the
    double [W * (MAX_SIZE / H)], within 1 unit of the exact value. *)
Theorem resize_tall_image (W H : Z) :
  uint32 W -> uint32 H -> W < H -> MAX_SIZE < H ->
  resize (ofZ W) (ofZ H)
  = (mul (ofZ W) (div (ofZ MAX_SIZE) (ofZ H)), ofZ MAX_SIZE) /\
  (toQ (snd (resize (ofZ W) (ofZ H))) == inject_Z MAX_SIZE)%Q /\
  isFinite (fst (resize (ofZ W) (ofZ H))) = true /\
  (Qabs (toQ (fst (resize (ofZ W) (ofZ H))) - ideal_edge W H) < 1)%Q.
Proof.
  intros HW HH Hlt Hmax. apply uint32_double in HW, HH.
  rewrite resize_ofZ by assumption.
  replace (H <? W) with false by (symmetry; apply Z.ltb_ge; lia).
  replace (MAX_SIZE <? H) with true by (symmetry; apply Z.ltb_lt; lia).
  split; [reflexivity|]. split; [reflexivity|]. cbn [fst].
  destruct (Z.eq_dec W 0) as [->|Hn].
  - rewrite scaled_zero by lia. split; [reflexivity|].
    unfold ideal_edge. simpl. reflexivity.
  - destruct (scaled_edge_bound W H ltac:(lia) ltac:(lia)) as [Hy Hb].
    split; [eapply normal_isFinite; exact Hy|].
    eapply Qlt_trans; [exact Hb|reflexivity].
Qed.

Lemma resize_tall_image_witness :
  resize (ofZ 1000) (ofZ 2000)
  = (mul (ofZ 1000) (div (ofZ MAX_SIZE) (ofZ 2000)), ofZ MAX_SIZE).
Proof.
  apply (resize_tall_image 1000 2000); unfold uint32, MAX_SIZE; simpl; lia.
Defined.

(** The resize step never enlarges: for an image of positive size both
    new edges are finite, positive and at most the old ones. *)
Theorem resize_never_upscales (W H : Z) :
  uint32 W -> uint32 H -> 0 < W -> 0 < H ->
  let out := resize (ofZ W) (ofZ H) in
  (isFinite (fst out) = true /\ isFinite (snd out) = true) /\
  (0 < toQ (fst out) <= inject_Z W)%Q /\
  (0 < toQ (snd out) <= inject_Z H)%Q.
Proof.
  intros HW HH HW0 HH0.
  assert (HW32 := HW). assert (HH32 := HH). unfold uint32 in HW32, HH32.
  apply uint32_double in HW, HH. cbv zeta.
  assert (QW := toQ_ofZ W HW). assert (QH := toQ_ofZ H HH).
  assert (PW := toQ_ofZ_pos W ltac:(lia)).
  assert (PH := toQ_ofZ_pos H ltac:(lia)).
  assert (QM : (toQ (ofZ MAX_SIZE) == 1200)%Q) by reflexivity.
  assert (FM : isFinite (ofZ MAX_SIZE) = true) by reflexivity.
  resize_cases W H.
  - destruct (scaled_edge_range H W ltac:(lia) ltac:(lia))
      as (F & P & L & _).
    assert (IW : (1200 <= inject_Z W)%Q)
      by (apply (Z2Q_le 1200 W); unfold MAX_SIZE in *; lia).
    repeat split; auto; try (rewrite QM; lra); try lra.
  - rewrite ?ofZ_isFinite by assumption. repeat split; auto; lra.
  - destruct (scaled_edge_range W H ltac:(lia) ltac:(lia))
      as (F & P & L & _).
    assert (IH : (1200 <= inject_Z H)%Q)
      by (apply (Z2Q_le 1200 H); unfold MAX_SIZE in *; lia).
    repeat split; auto; try (rewrite QM; lra); try lra.
  - rewrite ?ofZ_isFinite by assumption. repeat split; auto; lra.
Qed.

Lemma resize_never_upscales_witness :
  (0 < toQ (snd (resize (ofZ 4000) (ofZ 3)))
   <= inject_Z 3)%Q.
Proof.
  apply (resize_never_upscales 4000 3); unfold uint32; simpl; lia.
Defined.

(** The result fits the square of side [MAX_SIZE]: the new height never
    exceeds [MAX_SIZE], the new width does not either unless the image is
    square, and then by less than 2^-40. *)
Theorem resize_fits_max_size (W H : Z) :
  uint32 W -> uint32 H ->
  let out := resize (ofZ W) (ofZ H) in
  (toQ (snd out) <= inject_Z MAX_SIZE)%Q /\
  (toQ (fst out) <= inject_Z MAX_SIZE + one_in_2_40)%Q /\
  (W <> H -> (toQ (fst out) <= inject_Z MAX_SIZE)%Q).
Proof.
  intros HW HH.
  assert (HW32 := HW). assert (HH32 := HH). unfold uint32 in HW32, HH32.
  apply uint32_double in HW, HH. cbv zeta.
  assert (QW := toQ_ofZ W HW). assert (QH := toQ_ofZ H HH).
  assert (QM : (toQ (ofZ MAX_SIZE) == 1200)%Q) by reflexivity.
  change (inject_Z MAX_SIZE) with 1200%Q. unfold one_in_2_40.
  resize_cases W H.
  - assert (Hh : (toQ (mul (ofZ H) (div (ofZ MAX_SIZE) (ofZ W))) <= 1200)%Q).
    { destruct (Z.eq_dec H 0) as [->|Hn].
      - rewrite scaled_zero by lia. simpl. lra.
      - destruct (scaled_edge_range H W ltac:(lia) ltac:(lia))
          as (_ & _ & _ & L).
        apply Qlt_le_weak. apply L. lia. }
    rewrite QM. repeat split; intros; lra.
  - assert (IW : (inject_Z W <= 1200)%Q)
      by (apply (Z2Q_le W 1200); unfold MAX_SIZE in *; lia).
    assert (IH : (inject_Z H <= 1200)%Q)
      by (apply (Z2Q_le H 1200); unfold MAX_SIZE in *; lia).
    repeat split; lra.
  - assert (Hw : (toQ (mul (ofZ W) (div (ofZ MAX_SIZE) (ofZ H)))
                  <= 1200 + (1 # 1099511627776))%Q /\
                 (W <> H ->
                  (toQ (mul (ofZ W) (div (ofZ MAX_SIZE) (ofZ H))) <= 1200)%Q)).
    { destruct (Z.eq_dec W 0) as [->|Hn].
      - rewrite scaled_zero by lia. simpl. split; [lra|intros; lra].
      - destruct (scaled_edge_range W H ltac:(lia) ltac:(lia))
          as (_ & _ & _ & L).
        destruct (Z.eq_dec W H) as [->|Hne].
        + split; [|congruence].
          destruct (scaled_edge_bound H H ltac:(lia) ltac:(lia)) as [_ Hb].
          apply Qabs_Qlt_condition in Hb.
          assert (Hid : (ideal_edge H H == 1200)%Q).
          { unfold ideal_edge, MAX_SIZE. rewrite inject_Z_mult, Qmult_comm.
            apply Qdiv_mult_l. intros E.
            assert (P : (0 < inject_Z H)%Q) by (apply (Z2Q_lt 0 H); lia).
            rewrite E in P. discriminate. }
          rewrite Hid in Hb. lra.
        + assert (Hl := L ltac:(lia)).
          change (inject_Z MAX_SIZE) with 1200%Q in Hl.
          split; [lra|intros; lra]. }
    destruct Hw as [Hw1 Hw2]. rewrite QM. repeat split; try lra; auto.
  - assert (IW : (inject_Z W <= 1200)%Q)
      by (apply (Z2Q_le W 1200); unfold MAX_SIZE in *; lia).
    assert (IH : (inject_Z H <= 1200)%Q)
      by (apply (Z2Q_le H 1200); unfold MAX_SIZE in *; lia).
    repeat split; lra.
Qed.

Lemma resize_fits_max_size_witness :
  (toQ (fst (resize (ofZ 3000) (ofZ 4000))) <= inject_Z MAX_SIZE)%Q.
Proof.
  apply (resize_fits_max_size 3000 4000); unfold uint32; simpl; lia.
Defined.

(** Turning the image by a quarter turn turns the result: for [W <> H] the
    two branches mirror each other. *)
Theorem resize_swaps_with_orientation (W H : Z) :
  uint32 W -> uint32 H -> W <> H ->
  resize (ofZ H) (ofZ W) = swap (resize (ofZ W) (ofZ H)).
Proof.
  intros HW HH Hne. apply uint32_double in HW, HH.
  rewrite !resize_ofZ by assumption. unfold swap.
  destruct (Z.ltb_spec H W); destruct (Z.ltb_spec W H); try lia;
    destruct (Z.ltb_spec MAX_SIZE W); destruct (Z.ltb_spec MAX_SIZE H);
    try lia; reflexivity.
Qed.

Lemma resize_swaps_with_orientation_witness :
  resize (ofZ 1000) (ofZ 2000) = swap (resize (ofZ 2000) (ofZ 1000)).
Proof.
  apply (resize_swaps_with_orientation 2000 1000);
    unfold uint32; simpl; lia.
Defined.

Local Open Scope string_scope.
Local Open Scope list_scope.

(** ** More on the archive (lines 89-103) *)

(** *** Splitting the data URL (line 95) *)

Lemma split_on_cons sep c (s : string) :
  split_on sep (String c s)
  = if Ascii.eqb c sep then ""%string :: split_on sep s
    else match split_on sep s with
         | h :: t => String c h :: t
         | [] => [String c ""]
         end.
Proof. reflexivity. Qed.

Lemma split_on_not_nil sep (s : string) : split_on sep s <> [].
Proof.
  destruct s as [|c s]; [discriminate|].
  rewrite split_on_cons. destruct (Ascii.eqb c sep); [discriminate|].
  destruct (split_on sep s); discriminate.
Qed.

(** Joining the pieces with the separator gives the string back. *)
Theorem split_on_join sep (s : string) :
  String.concat (String sep "") (split_on sep s) = s.
Proof.
  induction s as [|c s IH]; [reflexivity|].
  rewrite split_on_cons.
  destruct (split_on sep s) as [|h t] eqn:E;
    [now apply split_on_not_nil in E|].
  destruct (Ascii.eqb_spec c sep) as [->|Hc].
  - simpl in *. now rewrite IH.
  - destruct t as [|h' t]; simpl in *; now rewrite <- IH.
Qed.

Lemma no_comma_cons c (s : string) :
  no_comma (String c s) = negb (Ascii.eqb c ",") && no_comma s.
Proof. unfold no_comma. simpl. now rewrite negb_orb. Qed.

Lemma split_on_no_comma (s : string) :
  no_comma s = true -> split_on "," s = [s].
Proof.
  induction s as [|c s IH]; [reflexivity|].
  rewrite no_comma_cons, split_on_cons. intros H.
  apply andb_true_iff in H as [Hc Hs]. apply negb_true_iff in Hc.
  now rewrite Hc, (IH Hs).
Qed.

Lemma split_on_first_comma (pre rest : string) :
  no_comma pre = true ->
  split_on "," (pre ++ "," ++ rest)%string = pre :: split_on "," rest.
Proof.
  induction pre as [|c pre IH]; intros H.
  - reflexivity.
  - rewrite no_comma_cons in H. apply andb_true_iff in H as [Hc Hs].
    apply negb_true_iff in Hc.
    change (String c pre ++ "," ++ rest)%string
      with (String c (pre ++ "," ++ rest))%string.
    now rewrite split_on_cons, Hc, (IH Hs).
Qed.

Lemma split_on_comma_two (s : string) :
  no_comma s = false -> exists a b l, split_on "," s = a :: b :: l.
Proof.
  induction s as [|c s IH]; [discriminate|].
  rewrite no_comma_cons, split_on_cons. intros H.
  destruct (Ascii.eqb c ",") eqn:Hc.
  - destruct (split_on "," s) as [|h t] eqn:E;
      [now apply split_on_not_nil in E|]. eauto.
  - simpl in H. destruct (IH H) as (a & b & l & ->). eauto.
Qed.

(** The payload taken from a data URL: what stands between the first comma
    and the next one; all that follows the comma when there is no other;
    and nothing ([undefined]) exactly when the URL has no comma. *)
Theorem base64Data_payload :
  (forall header payload rest,
      no_comma header = true -> no_comma payload = true ->
      base64Data (header ++ "," ++ payload)%string = Some payload /\
      base64Data (header ++ "," ++ payload ++ "," ++ rest)%string
      = Some payload) /\
  (forall url, base64Data url = None <-> no_comma url = true).
Proof.
  split.
  - intros header payload rest Hh Hp. unfold base64Data. split.
    + now rewrite split_on_first_comma, split_on_no_comma.
    + now rewrite !split_on_first_comma.
  - intros url. unfold base64Data. split.
    + intros H. destruct (no_comma url) eqn:E; [reflexivity|].
      destruct (split_on_comma_two url E) as (a & b & l & Hs).
      rewrite Hs in H. discriminate.
    + intros H. now rewrite split_on_no_comma.
Qed.

Lemma base64Data_payload_witness :
  base64Data "data:image/webp;base64,UklGRg==" = Some "UklGRg=="%string.
Proof.
  apply (proj1 (proj1 base64Data_payload "data:image/webp;base64"%string
                  "UklGRg=="%string ""%string eq_refl eq_refl)).
Defined.

(** *** Entry names (line 96) *)

Lemma strip_ext_is_prefix (s : string) :
  exists suffix, s = (strip_ext s ++ suffix)%string.
Proof.
  induction s as [|c s IH].
  - exists ""%string. reflexivity.
  - rewrite strip_ext_cons. destruct (ext_here (String c s)).
    + exists (String c s). reflexivity.
    + destruct IH as [suffix IH]. exists suffix. simpl. now rewrite <- IH.
Qed.

Lemma zipOne_ready_true img :
  is_ready img = true ->
  exists url, resultUrl img = Some url /\
              zipOne img = [mkZipFile (fileName img) (base64Data url) true].
Proof.
  unfold is_ready, zipOne. destruct (resultUrl img) as [url|]; [|discriminate].
  intros H. rewrite H. eauto.
Qed.

Lemma zipOne_ready_false img : is_ready img = false -> zipOne img = [].
Proof.
  unfold is_ready, zipOne. destruct (resultUrl img) as [url|]; [|reflexivity].
  now intros ->.
Qed.

(** Every file put into the zip comes from an item with a result: it is
    named by a leading part of that item's file name followed by [.webp],
    holds the payload of the item's data URL and is marked as base64. *)
Theorem zipFiles_entries (imgs : list ImageData) :
  Forall (fun z =>
            exists img url stem suffix,
              In img imgs /\ resultUrl img = Some url /\ url <> ""%string /\
              name (file img) = (stem ++ suffix)%string /\
              zf_name z = (stem ++ ".webp")%string /\
              zf_data z = base64Data url /\ zf_base64 z = true)
         (zipFiles imgs).
Proof.
  unfold zipFiles. apply Forall_forall. intros z Hz.
  apply in_flat_map in Hz as (img & Hin & Hz).
  destruct (is_ready img) eqn:R.
  - destruct (zipOne_ready_true img R) as (url & Hu & Hone).
    rewrite Hone in Hz. destruct Hz as [<-|[]].
    destruct (strip_ext_is_prefix (name (file img))) as [suffix Hs].
    exists img, url, (strip_ext (name (file img))), suffix.
    repeat split; auto.
    intros ->. unfold is_ready in R. rewrite Hu in R. discriminate.
  - rewrite (zipOne_ready_false img R) in Hz. destruct Hz.
Qed.

Lemma zipFiles_length_nil (imgs : list ImageData) :
  List.length (zipFiles imgs) = List.length (filter is_ready imgs) /\
  (zipFiles imgs = [] <-> forall img, In img imgs -> is_ready img = false).
Proof.
  unfold zipFiles. induction imgs as [|img imgs [IH1 IH2]].
  - split; [reflexivity|]. split; [intros _ img []|reflexivity].
  - simpl flat_map. simpl filter. destruct (is_ready img) eqn:R.
    + destruct (zipOne_ready_true img R) as (url & _ & ->).
      simpl. split; [now rewrite IH1|].
      split; [discriminate|]. intros H.
      specialize (H img (or_introl eq_refl)). congruence.
    + rewrite (zipOne_ready_false img R). simpl. split; [exact IH1|].
      rewrite IH2. split.
      * intros H x [<-|Hx]; auto.
      * intros H x Hx. apply H. now right.
Qed.

Lemma fold_zip_file_nil (fs zip : list ZipFile) :
  fold_left zip_file fs zip = [] <-> fs = [] /\ zip = [].
Proof.
  split.
  - intros H. assert (L := fold_zip_file_length fs zip). rewrite H in L.
    simpl in L. destruct zip; [|simpl in L; lia].
    destruct fs as [|f fs]; [auto|]. simpl in H.
    assert (L' := fold_zip_file_length fs [f]). rewrite H in L'.
    simpl in L'. lia.
  - now intros [-> ->].
Qed.

(** [downloadAllAsZip] calls [zip.file] once for each item with a result
    and for nothing else.  The zip then holds one file under each name
    that was used, the one of the last call under that name, so never more
    files than there were calls; it is empty exactly when no item has a
    result, as for an empty batch.  [saveAs] is called exactly when the
    generation of the zip succeeds, with that zip and the one fixed
    name. *)
Theorem zipObject_contents generates (st : AppState) :
  let calls := zipFiles (images st) in
  let zip := zipObject (images st) in
  List.length calls = List.length (filter is_ready (images st)) /\
  NoDup (map zf_name zip) /\
  (forall n, find (has_name n) zip = find (has_name n) (rev calls)) /\
  (forall n, In n (map zf_name zip) <-> In n (map zf_name calls)) /\
  (List.length zip <= List.length calls)%nat /\
  (zip = [] <-> forall img, In img (images st) -> is_ready img = false) /\
  downloadAllAsZip generates st
  = if generates zip then [SaveAs zip "optimized_images.zip"] else [].
Proof.
  cbv zeta. unfold zipObject.
  destruct (zipFiles_length_nil (images st)) as [Hlen Hnil].
  split; [exact Hlen|].
  split; [apply fold_zip_file_NoDup; constructor|].
  split.
  { intros n. rewrite fold_zip_file_find.
    now destruct (find (has_name n) (rev (zipFiles (images st)))). }
  split.
  { intros n.
    assert (G : forall fs zip,
               In n (map zf_name (fold_left zip_file fs zip))
               <-> In n (map zf_name zip) \/ In n (map zf_name fs)).
    { induction fs as [|f fs IH]; intros zip; simpl; [tauto|].
      rewrite IH, zip_file_names. intuition auto. }
    rewrite G. simpl. tauto. }
  split.
  { apply (fold_zip_file_length (zipFiles (images st)) []). }
  split; [|reflexivity].
  rewrite fold_zip_file_nil, <- Hnil. tauto.
Qed.

(** Two items whose file names differ in the final extension only get the
    same entry name, and both files are put into the zip under it: the
    zip is left with the second one alone. *)
Theorem zipFiles_name_collision (a b : ImageData) (base ext1 ext2 : string) :
  is_ready a = true -> is_ready b = true ->
  name (file a) = (base ++ "." ++ ext1)%string ->
  name (file b) = (base ++ "." ++ ext2)%string ->
  ext1 <> ""%string -> ext_chars ext1 = true ->
  ext2 <> ""%string -> ext_chars ext2 = true ->
  map zf_name (zipFiles [a; b])
  = [(base ++ ".webp")%string; (base ++ ".webp")%string] /\
  zipObject [a; b] = zipOne b.
Proof.
  intros Ra Rb Na Nb H1 E1 H2 E2. unfold zipObject, zipFiles. simpl.
  destruct (zipOne_ready_true a Ra) as (ua & _ & ->).
  destruct (zipOne_ready_true b Rb) as (ub & _ & ->).
  simpl. unfold fileName. rewrite Na, Nb.
  rewrite !strip_ext_extension by assumption.
  now rewrite String.eqb_refl.
Qed.

Lemma zipFiles_name_collision_witness :
  map zf_name (zipFiles [sample_done "a.png"; sample_done "a.jpg"])
  = ["a.webp"%string; "a.webp"%string].
Proof.
  apply (zipFiles_name_collision (sample_done "a.png") (sample_done "a.jpg")
           "a" "png" "jpg");
    (reflexivity || discriminate).
Defined.

(** Whenever the download button is shown for a batch that satisfies the
    item invariant, the archive holds at least one file. *)
Theorem download_shown_archive_not_empty (st : AppState) :
  Forall item_ready (images st) ->
  download_shown st = true ->
  isProcessing st = false /\ start_shown st = true /\
  zipFiles (images st) <> [] /\ zipObject (images st) <> [].
Proof.
  intros Hinv H. unfold download_shown in H.
  apply andb_true_iff in H as [Hex Hp]. apply negb_true_iff in Hp.
  apply existsb_exists in Hex as (img & Hin & Hd).
  split; [exact Hp|]. split.
  - unfold start_shown. destruct (images st); [destruct Hin|reflexivity].
  - assert (Hcalls : zipFiles (images st) <> []).
    { intros Hz0.
      assert (Hz := proj1 (proj2 (zipFiles_length_nil (images st)))
                          Hz0 img Hin).
      rewrite Forall_forall in Hinv. destruct (Hinv img Hin) as [_ Hr].
      unfold is_ready in Hz. rewrite Hr in Hz; [discriminate|].
      now destruct (status img). }
    split; [exact Hcalls|].
    unfold zipObject. rewrite fold_zip_file_nil. tauto.
Qed.

Lemma download_shown_archive_not_empty_witness :
  zipObject (images sample_mixed) <> [].
Proof.
  apply (download_shown_archive_not_empty sample_mixed);
    [|reflexivity].
  repeat (apply Forall_cons || apply Forall_nil); unfold item_ready; simpl;
    split; intros; (reflexivity || discriminate).
Defined.

(** ** More on the handlers *)

Lemma mapi_from_map {A B C} (g : B -> C) (f : nat -> A -> B) xs k :
  map g (mapi_from k f xs) = mapi_from k (fun i x => g (f i x)) xs.
Proof. revert k. induction xs; intros k; simpl; [|rewrite IHxs]; auto. Qed.

Lemma mapi_from_const {A B} (f : A -> B) xs k :
  mapi_from k (fun _ x => f x) xs = map f xs.
Proof. revert k. induction xs; intros k; simpl; [|rewrite IHxs]; auto. Qed.

Lemma run_events_whole st evs :
  run_events st evs = run_events st (evs ++ []).
Proof. now rewrite app_nil_r. Qed.

(** *** handleFileChange (lines 76-87) *)

(** Intake keeps the items there are, in place and untouched, and adds
    after them one [idle] item without result for each selected file, in
    the order of the selection; it leaves [isProcessing] alone, and a
    missing file list changes nothing. *)
Theorem handleFileChange_appends rid url (fs : list File) (st : AppState) :
  let st' := run_events st (handleFileChange rid url (Some fs) st) in
  (exists added,
      images st' = images st ++ added /\
      map file added = fs /\
      Forall (fun img => status img = idle /\ resultUrl img = None) added) /\
  isProcessing st' = isProcessing st /\
  run_events st (handleFileChange rid url None st) = st.
Proof.
  cbv zeta. split; [|split; reflexivity].
  eexists. split; [reflexivity|]. split.
  - unfold mapi. rewrite mapi_from_map. simpl. rewrite mapi_from_const.
    apply map_id.
  - apply mapi_from_Forall. intros i f. simpl. auto.
Qed.

(** *** handleStartOptimization (lines 54-73) *)

Lemma optimizeAll_keeps has2d toDataURL loads imgs l :
  optimizeAll has2d toDataURL loads imgs = Resolved l ->
  map id l = map id imgs /\ map file l = map file imgs.
Proof.
  unfold optimizeAll, mapi. generalize 0%nat as k.
  revert l. induction imgs as [|x xs IH]; intros l k; simpl.
  - intros H; injection H as <-. auto.
  - unfold optimizeOne at 1.
    destruct (processImage _ _ _ x) as [url|]; [|discriminate].
    destruct (Promise_all _) as [l'|] eqn:E; [|discriminate].
    intros H; injection H as <-. destruct (IH l' (S k) E) as [H1 H2].
    simpl. now rewrite H1, H2.
Qed.

(** A run never drops, adds, reorders or renames an item: in every state
    it passes through, the identifiers and the files of the batch are those
    of before, in the same order. *)
Theorem run_keeps_ids_and_files
        has2d toDataURL (loads : nat -> string -> option HTMLImage)
        st pre post :
  handleStartOptimization has2d toDataURL loads st = pre ++ post ->
  map id (images (run_events st pre)) = map id (images st) /\
  map file (images (run_events st pre)) = map file (images st).
Proof.
  intros H. unfold handleStartOptimization in H.
  destruct (optimizeAll has2d toDataURL loads (images st)) as [l|] eqn:E;
    [apply optimizeAll_keeps in E|];
    split_prefix H; simpl; auto.
Qed.

Lemma run_keeps_ids_and_files_witness :
  map file
    (images (run_events sample_two_good
       (handleStartOptimization true sample_toDataURL sample_load
                                sample_two_good)))
  = map file (images sample_two_good).
Proof.
  apply (run_keeps_ids_and_files true sample_toDataURL sample_load
           sample_two_good
           (handleStartOptimization true sample_toDataURL sample_load
                                    sample_two_good) []).
  symmetry. apply app_nil_r.
Defined.

Lemma handleStartOptimization_cut has2d toDataURL loads st :
  handleStartOptimization has2d toDataURL loads st
  = run_start ++ run_finish has2d toDataURL loads (images st).
Proof. reflexivity. Qed.

(** Files selected while a run is in flight are lost when the run
    completes: its [setImages] writes the results of the batch the handler
    closed over, so the state is the one the run reaches without the
    selection. *)
Theorem files_selected_during_run_are_lost
        has2d toDataURL (loads : nat -> string -> option HTMLImage)
        rid url (fs : list File) (st : AppState) :
  (forall i img, nth_error (images st) i = Some img ->
                 loads i (preview img) <> None) ->
  let st1 := run_events st run_start in
  let st2 := run_events st1 (handleFileChange rid url (Some fs) st1) in
  let st3 := run_events st2
               (run_finish has2d toDataURL loads (images st)) in
  List.length (images st2) = (List.length (images st) + List.length fs)%nat /\
  st3 = run_events st (handleStartOptimization has2d toDataURL loads st) /\
  List.length (images st3) = List.length (images st).
Proof.
  intros Hok. cbv zeta.
  destruct (optimizeAll_resolves has2d toDataURL loads (images st) Hok)
    as (l & Hl & Hlen & _).
  unfold run_finish, handleStartOptimization. rewrite Hl. simpl.
  split; [|split; [reflexivity|exact Hlen]].
  rewrite length_app. f_equal. unfold mapi.
  revert fs. generalize 0%nat. intros k fs. revert k.
  induction fs; intros k; simpl; auto.
Qed.

Lemma files_selected_during_run_are_lost_witness :
  List.length
    (images
       (run_events
          (run_events (run_events sample_two_good run_start)
             (handleFileChange sample_randomId sample_createObjectURL
                (Some sample_files) (run_events sample_two_good run_start)))
          (run_finish true sample_toDataURL sample_load
                      (images sample_two_good))))
  = 2%nat.
Proof.
  apply (files_selected_during_run_are_lost
           true sample_toDataURL sample_load
           sample_randomId sample_createObjectURL sample_files
           sample_two_good).
  intros [|[|[|i]]] img H; simpl in H; try discriminate H;
    injection H as <-; vm_compute; discriminate.
Defined.

(** ** The component over time *)

Lemma preserves_final (P : ImageData -> Prop) h st :
  preserves P h -> Forall P (images st) ->
  Forall P (images (run_events st (h st))).
Proof.
  intros Hp Hinv. apply (Hp st (h st) []); [assumption|].
  symmetry. apply app_nil_r.
Qed.

Lemma item_settled_fresh i f u :
  item_settled {| id := i; file := f; preview := u;
                  status := idle; resultUrl := None |}.
Proof. left. auto. Qed.

Lemma is_handler_preserves_settled h :
  is_handler h -> preserves item_settled h.
Proof.
  assert (Hdone : forall has2d toDataURL,
             (forall c t q, toDataURL c t q <> ""%string) ->
             forall src image,
               item_settled (withResult src (onload has2d toDataURL image))).
  { intros has2d toDataURL Hne src image. right. unfold onload. simpl.
    destruct (resize _ _) as [w' h'].
    destruct (toDataURL _ _ _) eqn:E; [now apply Hne in E|]. auto. }
  intros [rid url files|has2d toDataURL loads Hne|generates|
          |has2d toDataURL loads snapshot Hne].
  - apply handleFileChange_preserves. exact item_settled_fresh.
  - apply handleStartOptimization_preserves. now apply Hdone.
  - apply downloadAllAsZip_preserves.
  - intros st pre post Hinv H. unfold run_start in H.
    split_prefix H; simpl; auto.
  - intros st pre post Hinv H. unfold run_finish in H.
    destruct (optimizeAll has2d toDataURL loads snapshot) as [l|] eqn:E;
      split_prefix H; simpl; auto;
      apply optimizeAll_results in E;
      (eapply Forall_impl; [|exact E]);
      intros img (src & image & ->); now apply Hdone.
Qed.

(** Whatever handlers run, in whatever order and however file selections
    fall between the start and the completion of a run, from the initial
    state: every item is either [idle] without result or [done] with a
    non-empty result that is also its preview.  In particular no item is
    ever [processing], although the type has that status. *)
Theorem items_are_idle_or_done (hs : list (AppState -> list Event)) :
  Forall is_handler hs ->
  Forall item_settled (images (run_handlers hs initial_state)) /\
  Forall (fun img => status img <> processing)
         (images (run_handlers hs initial_state)).
Proof.
  intros Hhs.
  assert (H : Forall item_settled (images (run_handlers hs initial_state))).
  { assert (H0 : Forall item_settled (images initial_state)) by constructor.
    revert H0. generalize initial_state.
    induction Hhs as [|h hs Hh Hhs IH]; intros st H0; simpl; [exact H0|].
    apply IH. apply preserves_final; [|exact H0].
    now apply is_handler_preserves_settled. }
  split; [exact H|].
  eapply Forall_impl; [|exact H].
  intros img [[Hs _]|[Hs _]]; rewrite Hs; discriminate.
Qed.

Lemma items_are_idle_or_done_witness :
  Forall (fun img => status img <> processing)
    (images
       (run_handlers
          [handleFileChange sample_randomId sample_createObjectURL
                            (Some sample_files);
           handleStartOptimization true sample_toDataURL sample_load;
           downloadAllAsZip (fun _ => true)]
          initial_state)).
Proof.
  apply (items_are_idle_or_done
           [handleFileChange sample_randomId sample_createObjectURL
                             (Some sample_files);
            handleStartOptimization true sample_toDataURL sample_load;
            downloadAllAsZip (fun _ => true)]).
  repeat (apply Forall_cons || apply Forall_nil).
  - apply is_fileChange.
  - apply is_startOptimization. intros c t q. discriminate.
  - apply is_downloadAllAsZip.
Defined.

(** *** What the view allows (lines 159-186) *)

Lemma handleFileChange_isProcessing rid url files st :
  isProcessing (run_events st (handleFileChange rid url files st))
  = isProcessing st.
Proof. destruct files; reflexivity. Qed.

Lemma fileChanges_isProcessing hs st :
  Forall is_fileChange_handler hs ->
  isProcessing (run_handlers hs st) = isProcessing st.
Proof.
  intros H. revert st. induction H as [|h hs (rid & url & files & ->) _ IH];
    intros st; simpl; [reflexivity|].
  now rewrite IH, handleFileChange_isProcessing.
Qed.

(** One image that fails to load locks the component: the run leaves
    [isProcessing] set, so the start button stays disabled under its
    "processing" label and the download button stays hidden, whatever
    files are selected afterwards, and selecting files is all the view
    still allows. *)
Theorem failed_load_locks_the_component
        has2d toDataURL (loads : nat -> string -> option HTMLImage)
        st K img (hs : list (AppState -> list Event)) :
  nth_error (images st) K = Some img ->
  loads K (preview img) = None ->
  Forall is_fileChange_handler hs ->
  let st' :=
    run_handlers hs
      (run_events st (handleStartOptimization has2d toDataURL loads st)) in
  start_disabled st' = true /\
  download_rendered st' = false /\
  start_label st' = "処理中..."%string.
Proof.
  intros HK Hload Hhs. cbv zeta.
  destruct (run_one_load_failed has2d toDataURL loads st K img HK Hload)
    as (_ & _ & Hp).
  unfold start_disabled, download_rendered, download_shown, start_label.
  rewrite (fileChanges_isProcessing hs _ Hhs), Hp.
  simpl. now rewrite !andb_false_r.
Qed.

Lemma failed_load_locks_the_component_witness :
  start_disabled
    (run_handlers
       [handleFileChange sample_randomId sample_createObjectURL
                         (Some sample_files)]
       (run_events sample_good_bad
          (handleStartOptimization true sample_toDataURL sample_load
                                   sample_good_bad)))
  = true.
Proof.
  apply (failed_load_locks_the_component
           true sample_toDataURL sample_load sample_good_bad 1%nat
           (sample_item "b.jpg" "blob:broken")
           [handleFileChange sample_randomId sample_createObjectURL
                             (Some sample_files)]);
    try reflexivity.
  repeat (apply Forall_cons || apply Forall_nil).
  exists sample_randomId, sample_createObjectURL, (Some sample_files).
  reflexivity.
Defined.

(** A run of a batch that is not empty and whose images all load ends with
    the download button shown and the start button enabled again. *)
Theorem completed_run_shows_download
        has2d toDataURL (loads : nat -> string -> option HTMLImage) st :
  images st <> [] ->
  (forall i img, nth_error (images st) i = Some img ->
                 loads i (preview img) <> None) ->
  let st' :=
    run_events st (handleStartOptimization has2d toDataURL loads st) in
  download_rendered st' = true /\ start_disabled st' = false /\
  Forall (fun img => status img = done) (images st').
Proof.
  intros Hne Hok. cbv zeta.
  destruct (optimizeAll_resolves has2d toDataURL loads (images st) Hok)
    as (l & Hl & Hlen & _).
  assert (Hd := optimizeAll_all_done _ _ _ _ _ Hl).
  unfold handleStartOptimization. rewrite Hl. simpl.
  unfold download_rendered, start_shown, download_shown, start_disabled.
  simpl. rewrite Hlen.
  destruct l as [|x l].
  - destruct (images st); [congruence|discriminate].
  - inversion Hd as [|? ? Hx _]; subst. simpl. rewrite Hx. simpl.
    destruct (images st); [congruence|]. auto.
Qed.

Lemma completed_run_shows_download_witness :
  download_rendered
    (run_events sample_two_good
       (handleStartOptimization true sample_toDataURL sample_load
                                sample_two_good))
  = true.
Proof.
  apply (completed_run_shows_download true sample_toDataURL sample_load
                                      sample_two_good).
  - discriminate.
  - intros [|[|[|i]]] img H; simpl in H; try discriminate H;
      injection H as <-; vm_compute; discriminate.
Defined.

Lemma zipFiles_app (a b : list ImageData) :
  zipFiles (a ++ b) = zipFiles a ++ zipFiles b.
Proof. unfold zipFiles. apply flat_map_app. Qed.

(** Files selected after a run do not reach the archive before the next
    run: the download button stays shown, with the new items still [idle],
    and a download saves the same archive as before the selection. *)
Theorem files_selected_later_are_not_archived
        rid url (fs : list File) (st : AppState) :
  download_shown st = true ->
  let st' := run_events st (handleFileChange rid url (Some fs) st) in
  download_shown st' = true /\
  (forall generates,
      downloadAllAsZip generates st' = downloadAllAsZip generates st) /\
  (fs <> [] -> exists img, In img (images st') /\ status img = idle).
Proof.
  intros H. cbv zeta. simpl. unfold download_shown in *. simpl.
  apply andb_true_iff in H as [Hex Hp]. split; [|split].
  - rewrite existsb_app, Hex, Hp. reflexivity.
  - intros generates. unfold downloadAllAsZip, zipObject. simpl.
    rewrite zipFiles_app.
    replace (zipFiles (mapi _ fs)) with (@nil ZipFile);
      [now rewrite app_nil_r|].
    symmetry. apply zipFiles_length_nil. intros img Hin.
    assert (Hf : Forall (fun img => is_ready img = false)
                        (mapi (fun i f => {| id := rid i; file := f;
                                             preview := url i f;
                                             status := idle;
                                             resultUrl := None |}) fs))
      by (apply mapi_from_Forall; reflexivity).
    rewrite Forall_forall in Hf. now apply Hf.
  - intros Hne. destruct fs as [|f fs]; [congruence|].
    eexists. split; [apply in_or_app; right; left; reflexivity|reflexivity].
Qed.

Lemma files_selected_later_are_not_archived_witness :
  downloadAllAsZip (fun _ => true)
    (run_events sample_mixed
       (handleFileChange sample_randomId sample_createObjectURL
                         (Some sample_files) sample_mixed))
  = downloadAllAsZip (fun _ => true) sample_mixed.
Proof.
  apply (files_selected_later_are_not_archived
           sample_randomId sample_createObjectURL sample_files sample_mixed).
  reflexivity.
Defined.

(** *** From selection to archive *)

Lemma zipFiles_all_ready (imgs : list ImageData) :
  Forall (fun img => is_ready img = true) imgs ->
  map zf_name (zipFiles imgs) = map fileName imgs.
Proof.
  unfold zipFiles. induction 1 as [|img imgs R _ IH]; [reflexivity|].
  simpl. destruct (zipOne_ready_true img R) as (u & _ & ->).
  simpl. now rewrite IH.
Qed.

(** Selecting files, optimising and downloading, from the initial state:
    when every selected file loads as an image and the selected files
    differ in the name with its final extension replaced by [.webp], the
    zip holds one file for each selected file, in the order of the
    selection, under that name; it is saved when its generation
    succeeds. *)
Theorem select_optimize_download
        has2d toDataURL (loads : nat -> string -> option HTMLImage)
        rid url (fs : list File) :
  (forall c t q, toDataURL c t q <> ""%string) ->
  (forall i f, nth_error fs i = Some f -> loads i (url i f) <> None) ->
  NoDup (map (fun f => (stripExtension (name f) ++ ".webp")%string) fs) ->
  let st :=
    run_handlers [handleFileChange rid url (Some fs);
                  handleStartOptimization has2d toDataURL loads]
                 initial_state in
  exists zip,
    map zf_name zip
    = map (fun f => (stripExtension (name f) ++ ".webp")%string) fs /\
    forall generates,
      downloadAllAsZip generates st
      = if generates zip then [SaveAs zip "optimized_images.zip"] else [].
Proof.
  intros Hne Hok Hnames. cbv zeta.
  pose (st1 := run_events initial_state
                 (handleFileChange rid url (Some fs) initial_state)).
  change (run_handlers [handleFileChange rid url (Some fs);
                        handleStartOptimization has2d toDataURL loads]
                       initial_state)
    with (run_events st1 (handleStartOptimization has2d toDataURL loads st1)).
  assert (Hfiles : map file (images st1) = fs).
  { unfold st1. simpl. unfold mapi. rewrite mapi_from_map. simpl.
    rewrite mapi_from_const. apply map_id. }
  assert (Hloads : forall i img, nth_error (images st1) i = Some img ->
                                 loads i (preview img) <> None).
  { intros i img Hi. unfold st1 in Hi. simpl in Hi. unfold mapi in Hi.
    rewrite mapi_from_nth_error in Hi.
    destruct (nth_error fs i) as [f|] eqn:Ef; [|discriminate].
    simpl in Hi. injection Hi as <-. simpl. now apply Hok. }
  destruct (optimizeAll_resolves has2d toDataURL loads (images st1) Hloads)
    as (l & Hl & _ & _).
  assert (Hres := optimizeAll_results _ _ _ _ _ Hl).
  destruct (optimizeAll_keeps _ _ _ _ _ Hl) as [_ Hf].
  unfold handleStartOptimization. rewrite Hl. simpl.
  assert (Hcalls : map zf_name (zipFiles l)
                   = map (fun f => (stripExtension (name f) ++ ".webp")%string)
                         fs).
  { rewrite zipFiles_all_ready.
    - rewrite <- Hfiles, <- Hf, map_map. apply map_ext. intros img.
      unfold fileName. now rewrite strip_ext_stripExtension.
    - eapply Forall_impl; [|exact Hres].
      intros img (src & image & ->). unfold is_ready, onload. simpl.
      destruct (resize _ _) as [w' h'].
      destruct (toDataURL _ _ _) eqn:E; [now apply Hne in E|reflexivity]. }
  exists (zipFiles l). split; [exact Hcalls|].
  intros generates. unfold downloadAllAsZip. simpl.
  rewrite zipObject_distinct; [reflexivity|].
  now rewrite Hcalls.
Qed.

Lemma select_optimize_download_witness :
  exists zip,
    map zf_name zip
    = ["cat.webp"%string; "dog.final.webp"%string; "notes.webp"%string] /\
    forall generates,
      downloadAllAsZip generates
        (run_handlers
           [handleFileChange sample_randomId sample_createObjectURL
                             (Some sample_files);
            handleStartOptimization true sample_toDataURL sample_load]
           initial_state)
      = if generates zip then [SaveAs zip "optimized_images.zip"] else [].
Proof.
  apply (select_optimize_download true sample_toDataURL sample_load
           sample_randomId sample_createObjectURL sample_files).
  - intros c t q. discriminate.
  - intros [|[|[|[|i]]]] f H; simpl in H; try discriminate H;
      injection H as <-; vm_compute; discriminate.
  - distinct_names_tac.
Defined.
